(** * golinq: LINQ-style operators over Go channels

    A shallow embedding of [gl/golinq.go].  Every operator of the library
    creates an unbuffered channel, starts one goroutine that sends on it and
    returns the channel.  A channel therefore has exactly one sender and,
    as the library is used, one receiver; a receive on it completes exactly
    when the sender reaches its next [output <- v] or its [close(output)].

    The embedding represents a channel by the goroutine that sends on it,
    written as a transition system: a state is a program point of the
    goroutine with its local variables and with the states of the
    goroutines it receives from.  The goroutines run concurrently, but the
    only communication is the hand-over on these channels, so what a
    channel delivers and what each goroutine receives does not depend on
    the schedule; the embedding takes the steps of a sender when its
    receiver waits for it.

    A value of type [chan] stands for one channel together with its
    sender, and every occurrence of a term of that type is a channel of its
    own: [From L] written twice is two calls of [From].  One Go channel
    handed to two receivers (the same variable passed as both arguments of
    [Zip], or read by two stages) is not a term used twice; for [Zip] that
    case is [Zip_aliased] below.

    Not modelled: [countOrTimeOut] (a race against a timer), the printing
    helpers of the demo, and the floating-point instances of [Sum] and
    [Max]. *)

From Stdlib Require Import ZArith List Bool Lia.
From Stdlib Require String DecimalString.
Import ListNotations.
Import String.StringSyntax.
Open Scope Z_scope.
Delimit Scope string_scope with string.

Set Implicit Arguments.

(** ** Go's [int]: 64-bit two's complement, overflow wraps around *)

Module GoInt.

Definition max_int : Z := 9223372036854775807.
Definition min_int : Z := -9223372036854775808.

Definition wrap (z : Z) : Z := (z + 2 ^ 63) mod 2 ^ 64 - 2 ^ 63.

Definition add (a b : Z) : Z := wrap (a + b).

Definition mul (a b : Z) : Z := wrap (a * b).

Definition in_range (z : Z) : Prop := min_int <= z <= max_int.

End GoInt.

(** ** Element types

    [var x T] gives the zero value of [T]; [cmp.Ordered] gives [>];
    the constraint of [Sum] gives the constant [0] and [+=]. *)

Class Zero (T : Type) := zero : T.
Class Ordered (T : Type) := gt : T -> T -> bool.
Class Numeric (T : Type) := { num_zero : T; num_add : T -> T -> T }.

#[export] Instance int_Zero : Zero Z := 0.
#[export] Instance int_Ordered : Ordered Z := Z.gtb.
#[export] Instance int_Numeric : Numeric Z :=
  {| num_zero := 0; num_add := GoInt.add |}.

(** ** Channels and the goroutines that feed them *)

(** What the receiver of a channel finds when it looks at the sender. *)
Inductive obs (T St : Type) : Type :=
| Sending (v : T) (k : St)   (* blocked in [output <- v]; resumes at [k] *)
| Working (k : St)           (* a step that is not a send on output *)
| Closed                     (* [close(output)] has been executed *)
| Parked.                    (* blocked for ever, output left open *)

Arguments Sending {T St} v k.
Arguments Working {T St} k.
Arguments Closed {T St}.
Arguments Parked {T St}.

Record goroutine (T : Type) : Type := Go {
  St : Type;
  next : St -> obs T St;
  start : St
}.

(** A [chan T] value: [None] is the nil channel. *)
Definition chan (T : Type) : Type := option (goroutine T).

(** Nobody ever sends on, or closes, the nil channel. *)
Definition nil_sender (T : Type) : goroutine T :=
  {| St := unit; next := fun _ => Parked; start := tt |}.

Definition sender {T} (c : chan T) : goroutine T :=
  match c with
  | Some g => g
  | None => nil_sender T
  end.

(** How a loop on the receiving side ended. *)
Inductive halt : Type :=
| HClosed     (* the channel was seen closed *)
| HParked     (* the receiver blocks for ever *)
| HFuel.      (* still running when the fuel ran out *)

(** Result of a function that runs on the caller's goroutine. *)
Inductive outcome (A : Type) : Type :=
| Ret (a : A)
| Deadlock
| Pending.

Arguments Ret {A} a.
Arguments Deadlock {A}.
Arguments Pending {A}.

Section Receiver.
Context {T : Type} (g : goroutine T).

(** [for v := range ch { xs = append(xs, v) }]: the values a receiver
    that reads to the end gets, the state the sender is left in, and how
    the loop ended. *)
Fixpoint drain (fuel : nat) (s : St g) : list T * St g * halt :=
  match fuel with
  | O => ([], s, HFuel)
  | S fuel' =>
      match next g s with
      | Sending v k =>
          let '(xs, s', h) := drain fuel' k in (v :: xs, s', h)
      | Working k => drain fuel' k
      | Closed => ([], s, HClosed)
      | Parked => ([], s, HParked)
      end
  end.

(** [emits s xs s']: from [s] the sender reaches [s'], having handed
    exactly the values [xs] to its receiver on the way. *)
Inductive emits : St g -> list T -> St g -> Prop :=
| emits_refl s : emits s [] s
| emits_work s k xs s' :
    next g s = Working k -> emits k xs s' -> emits s xs s'
| emits_send s v k xs s' :
    next g s = Sending v k -> emits k xs s' -> emits s (v :: xs) s'.

(** The sender hands over [xs] and then closes the channel. *)
Definition closes_after (s : St g) (xs : list T) (s' : St g) : Prop :=
  emits s xs s' /\ next g s' = Closed.

(** [v, ok := <-ch] *)
Fixpoint recv (fuel : nat) (s : St g) : outcome (option T * St g) :=
  match fuel with
  | O => Pending
  | S fuel' =>
      match next g s with
      | Sending v k => Ret (Some v, k)
      | Working k => recv fuel' k
      | Closed => Ret (None, s)
      | Parked => Deadlock
      end
  end.

End Receiver.

(** The sequence a channel delivers to a receiver that reads it to the end. *)
Definition collect {T} (fuel : nat) (c : chan T) : list T * halt :=
  let g := sender c in
  let '(xs, _, h) := drain g fuel (start g) in (xs, h).

(** [c] delivers exactly [xs] and is then closed. *)
Definition delivers {T} (c : chan T) (xs : list T) : Prop :=
  exists fuel, collect fuel c = (xs, HClosed).

(** ** Producers *)

Section From.
Context {T : Type}.

(** [FromLoop (elem :: rest)]: blocked in [output <- elem], with [rest]
    still to be ranged over; [FromLoop []]: at [close(output)]. *)
Inductive FromSt : Type :=
| FromLoop (rest : list T)
| FromExit.

Definition From_next (s : FromSt) : obs T FromSt :=
  match s with
  | FromLoop (elem :: rest) => Sending elem (FromLoop rest)
  | FromLoop [] => Working FromExit
  | FromExit => Closed
  end.

Definition From_go (source : list T) : goroutine T :=
  {| St := FromSt; next := From_next; start := FromLoop source |}.

Definition From (source : list T) : chan T := Some (From_go source).

End From.

Arguments FromSt T : clear implicits.

(** [Fibonaccis]: [a] and [b] live in the closure; the loop never ends. *)
Inductive FibSt : Type :=
| FibSendA (a b : Z)     (* [output <- a] *)
| FibSendB (a b : Z)     (* [output <- b] *)
| FibLoop (a b : Z).     (* [c := a + b; output <- c] *)

Definition Fib_next (s : FibSt) : obs Z FibSt :=
  match s with
  | FibSendA a b => Sending a (FibSendB a b)
  | FibSendB a b => Sending b (FibLoop a b)
  | FibLoop a b =>
      let c := GoInt.add a b in
      Sending c (FibLoop b c)        (* [a = b; b = c] *)
  end.

Definition Fib_go : goroutine Z :=
  {| St := FibSt; next := Fib_next; start := FibSendA 1 1 |}.

Definition Fibonaccis : chan Z := Some Fib_go.

(** ** Transforms

    Each stage keeps the state [u] of the goroutine it reads from: a
    receive of the stage is a step of the pair. *)

Section Map.
Context {T1 T2 : Type} (g : goroutine T1) (mapper : T1 -> T2).

Inductive MapSt : Type :=
| MapRange (u : St g)               (* [for s := range source] *)
| MapSend (v : T2) (u : St g)       (* [output <- mapper(s)] *)
| MapClose (u : St g)               (* [close(output)] *)
| MapExit (u : St g).

Definition Map_next (s : MapSt) : obs T2 MapSt :=
  match s with
  | MapRange u =>
      match next g u with
      | Sending s u' => Working (MapSend (mapper s) u')
      | Working u' => Working (MapRange u')
      | Closed => Working (MapClose u)
      | Parked => Parked
      end
  | MapSend v u => Sending v (MapRange u)
  | MapClose u => Working (MapExit u)
  | MapExit _ => Closed
  end.

Definition Map_go : goroutine T2 :=
  {| St := MapSt; next := Map_next; start := MapRange (start g) |}.

End Map.

Definition Map {T1 T2} (source : chan T1) (mapper : T1 -> T2) : chan T2 :=
  match source with
  | None => None                              (* [if source == nil] *)
  | Some g => Some (Map_go g mapper)
  end.

Section Zip.
Context {T1 T2 T3 : Type} (gx : goroutine T1) (gy : goroutine T2)
        (mapper : T1 -> T2 -> T3).

(** In [ZipRecvY x ..] the option [x] holds the pair [x, hasX]: [None]
    is [hasX = false]. *)
Inductive ZipSt : Type :=
| ZipRecvX (ux : St gx) (uy : St gy)                  (* [x, hasX := <-xs] *)
| ZipRecvY (x : option T1) (ux : St gx) (uy : St gy)  (* [y, hasY := <-ys] *)
| ZipSend (v : T3) (ux : St gx) (uy : St gy)          (* [output <- mapper(x, y)] *)
| ZipClose (ux : St gx) (uy : St gy)                  (* [close(output)] *)
| ZipExit (ux : St gx) (uy : St gy).

Definition Zip_next (s : ZipSt) : obs T3 ZipSt :=
  match s with
  | ZipRecvX ux uy =>
      match next gx ux with
      | Sending x ux' => Working (ZipRecvY (Some x) ux' uy)
      | Working ux' => Working (ZipRecvX ux' uy)
      | Closed => Working (ZipRecvY None ux uy)
      | Parked => Parked
      end
  | ZipRecvY x ux uy =>
      match next gy uy with
      | Sending y uy' =>
          match x with
          | Some x => Working (ZipSend (mapper x y) ux uy')
          | None => Working (ZipClose ux uy')        (* [!hasX]: break *)
          end
      | Working uy' => Working (ZipRecvY x ux uy')
      | Closed => Working (ZipClose ux uy)           (* [!hasY]: break *)
      | Parked => Parked
      end
  | ZipSend v ux uy => Sending v (ZipRecvX ux uy)
  | ZipClose ux uy => Working (ZipExit ux uy)
  | ZipExit _ _ => Closed
  end.

Definition Zip_go : goroutine T3 :=
  {| St := ZipSt; next := Zip_next;
     start := ZipRecvX (start gx) (start gy) |}.

End Zip.

(** [xs] and [ys] are two channels, each with a sender of its own. *)
Definition Zip {T1 T2 T3} (xs : chan T1) (ys : chan T2)
    (mapper : T1 -> T2 -> T3) : chan T3 :=
  match xs, ys with
  | Some gx, Some gy => Some (Zip_go gx gy mapper)
  | _, _ => None                              (* [xs == nil || ys == nil] *)
  end.

(** [Zip(c, c, mapper)]: the same channel as [xs] and as [ys].  Both
    receives of the loop are then receives from the one sender [g]. *)
Section ZipAliased.
Context {T T3 : Type} (g : goroutine T) (mapper : T -> T -> T3).

Inductive ZipAliasedSt : Type :=
| ZipAliasedRecvX (u : St g)                    (* [x, hasX := <-xs] *)
| ZipAliasedRecvY (x : option T) (u : St g)     (* [y, hasY := <-ys] *)
| ZipAliasedSend (v : T3) (u : St g)            (* [output <- mapper(x, y)] *)
| ZipAliasedClose (u : St g)                    (* [close(output)] *)
| ZipAliasedExit (u : St g).

Definition Zip_aliased_next (s : ZipAliasedSt) : obs T3 ZipAliasedSt :=
  match s with
  | ZipAliasedRecvX u =>
      match next g u with
      | Sending x u' => Working (ZipAliasedRecvY (Some x) u')
      | Working u' => Working (ZipAliasedRecvX u')
      | Closed => Working (ZipAliasedRecvY None u)
      | Parked => Parked
      end
  | ZipAliasedRecvY x u =>
      match next g u with
      | Sending y u' =>
          match x with
          | Some x => Working (ZipAliasedSend (mapper x y) u')
          | None => Working (ZipAliasedClose u')
          end
      | Working u' => Working (ZipAliasedRecvY x u')
      | Closed => Working (ZipAliasedClose u)
      | Parked => Parked
      end
  | ZipAliasedSend v u => Sending v (ZipAliasedRecvX u)
  | ZipAliasedClose u => Working (ZipAliasedExit u)
  | ZipAliasedExit _ => Closed
  end.

Definition Zip_aliased_go : goroutine T3 :=
  {| St := ZipAliasedSt; next := Zip_aliased_next;
     start := ZipAliasedRecvX (start g) |}.

End ZipAliased.

Definition Zip_aliased {T T3} (c : chan T) (mapper : T -> T -> T3)
    : chan T3 :=
  match c with
  | Some g => Some (Zip_aliased_go g mapper)
  | None => None                              (* [xs == nil || ys == nil] *)
  end.

Section Filter.
Context {T : Type} (g : goroutine T) (predicate : T -> bool).

Inductive FilterSt : Type :=
| FilterRange (u : St g)
| FilterSend (s : T) (u : St g)
| FilterClose (u : St g)
| FilterExit (u : St g).

Definition Filter_next (s : FilterSt) : obs T FilterSt :=
  match s with
  | FilterRange u =>
      match next g u with
      | Sending s u' =>
          if predicate s then Working (FilterSend s u')
          else Working (FilterRange u')
      | Working u' => Working (FilterRange u')
      | Closed => Working (FilterClose u)
      | Parked => Parked
      end
  | FilterSend s u => Sending s (FilterRange u)
  | FilterClose u => Working (FilterExit u)
  | FilterExit _ => Closed
  end.

Definition Filter_go : goroutine T :=
  {| St := FilterSt; next := Filter_next; start := FilterRange (start g) |}.

End Filter.

Definition Filter {T} (source : chan T) (predicate : T -> bool) : chan T :=
  match source with
  | None => None
  | Some g => Some (Filter_go g predicate)
  end.

Section Take.
Context {T : Type} (g : goroutine T) (count : Z).

Inductive TakeSt : Type :=
| TakeRange (taken : Z) (u : St g)            (* [for s := range source] *)
| TakeSend (s : T) (taken : Z) (u : St g)     (* [output <- s] *)
| TakeClose (taken : Z) (u : St g)            (* [close(output)] *)
| TakeExit (taken : Z) (u : St g).

Definition Take_next (s : TakeSt) : obs T TakeSt :=
  match s with
  | TakeRange taken u =>
      match next g u with
      | Sending s u' =>
          let taken := GoInt.add taken 1 in            (* [taken++] *)
          if taken >? count then Working (TakeClose taken u')   (* break *)
          else Working (TakeSend s taken u')
      | Working u' => Working (TakeRange taken u')
      | Closed => Working (TakeClose taken u)
      | Parked => Parked
      end
  | TakeSend s taken u => Sending s (TakeRange taken u)
  | TakeClose taken u => Working (TakeExit taken u)
  | TakeExit _ _ => Closed
  end.

Definition Take_go : goroutine T :=
  {| St := TakeSt; next := Take_next; start := TakeRange 0 (start g) |}.

End Take.

(** [Take] has no nil check: it always makes a channel and starts its
    goroutine, which ranges over whatever [source] is. *)
Definition Take {T} (source : chan T) (count : Z) : chan T :=
  Some (Take_go (sender source) count).

Section Skip.
Context {T : Type} (g : goroutine T) (count : Z).

Inductive SkipSt : Type :=
| SkipRange (skipped : Z) (u : St g)          (* [for s := range source] *)
| SkipSend (s : T) (skipped : Z) (u : St g)   (* [output <- s] *)
| SkipClose (skipped : Z) (u : St g)          (* [close(output)] *)
| SkipExit (skipped : Z) (u : St g).

Definition Skip_next (s : SkipSt) : obs T SkipSt :=
  match s with
  | SkipRange skipped u =>
      match next g u with
      | Sending s u' =>
          let skipped := GoInt.add skipped 1 in        (* [skipped++] *)
          if skipped >? count then Working (SkipSend s skipped u')
          else Working (SkipRange skipped u')
      | Working u' => Working (SkipRange skipped u')
      | Closed => Working (SkipClose skipped u)
      | Parked => Parked
      end
  | SkipSend s skipped u => Sending s (SkipRange skipped u)
  | SkipClose skipped u => Working (SkipExit skipped u)
  | SkipExit _ _ => Closed
  end.

Definition Skip_go : goroutine T :=
  {| St := SkipSt; next := Skip_next; start := SkipRange 0 (start g) |}.

End Skip.

(** [Skip] has no nil check either. *)
Definition Skip {T} (source : chan T) (count : Z) : chan T :=
  Some (Skip_go (sender source) count).

(** ** Aggregation functions

    These run on the caller's goroutine and receive from [source] until it
    is closed.  A receive that has to wait takes the sender's steps; the
    fuel bounds the number of steps, [Pending] is fuel exhausted and
    [Deadlock] a receive that can never complete. *)

Section Aggregators.
Context {T : Type} (g : goroutine T).

Fixpoint Max_loop {O : Ordered T} (fuel : nat) (s : St g)
    (max : T) (first : bool) : outcome T :=
  match fuel with
  | O => Pending
  | S fuel' =>
      match next g s with
      | Sending s k =>
          let max := if first || gt s max then s else max in
          Max_loop fuel' k max false
      | Working k => Max_loop fuel' k max first
      | Closed => Ret max
      | Parked => Deadlock
      end
  end.

Fixpoint Last_loop (fuel : nat) (s : St g) (last : T) : outcome T :=
  match fuel with
  | O => Pending
  | S fuel' =>
      match next g s with
      | Sending s k => Last_loop fuel' k s
      | Working k => Last_loop fuel' k last
      | Closed => Ret last
      | Parked => Deadlock
      end
  end.

Fixpoint Count_loop (fuel : nat) (s : St g) (count : Z) : outcome Z :=
  match fuel with
  | O => Pending
  | S fuel' =>
      match next g s with
      | Sending _ k => Count_loop fuel' k (GoInt.add count 1)
      | Working k => Count_loop fuel' k count
      | Closed => Ret count                        (* [!more] *)
      | Parked => Deadlock
      end
  end.

Fixpoint Sum_loop {N : Numeric T} (fuel : nat) (s : St g) (ret : T)
    : outcome T :=
  match fuel with
  | O => Pending
  | S fuel' =>
      match next g s with
      | Sending s k => Sum_loop fuel' k (num_add ret s)
      | Working k => Sum_loop fuel' k ret
      | Closed => Ret ret
      | Parked => Deadlock
      end
  end.

End Aggregators.

Definition Max {T} {Z0 : Zero T} {O : Ordered T} (fuel : nat)
    (source : chan T) : outcome T :=
  let g := sender source in
  Max_loop g fuel (start g) zero true.

(** [first := <-source]: on a closed channel the receive yields the zero
    value. *)
Definition First {T} {Z0 : Zero T} (fuel : nat) (source : chan T)
    : outcome T :=
  let g := sender source in
  match recv g fuel (start g) with
  | Ret (Some v, _) => Ret v
  | Ret (None, _) => Ret zero
  | Deadlock => Deadlock
  | Pending => Pending
  end.

Definition Last {T} {Z0 : Zero T} (fuel : nat) (source : chan T)
    : outcome T :=
  let g := sender source in
  Last_loop g fuel (start g) zero.

Definition Count {T} (fuel : nat) (source : chan T) : outcome Z :=
  let g := sender source in
  Count_loop g fuel (start g) 0.

Definition Sum {T} {N : Numeric T} (fuel : nat) (source : chan T)
    : outcome T :=
  let g := sender source in
  Sum_loop g fuel (start g) num_zero.

(** [f] returns [a]: some amount of fuel is enough, and more fuel does not
    change the result. *)
Definition returns {A} (f : nat -> outcome A) (a : A) : Prop :=
  exists fuel, forall fuel', (fuel <= fuel')%nat -> f fuel' = Ret a.

(** ** Reference functions on lists, used to state the properties *)

(** The arithmetic sum of a list of integers. *)
Definition list_sum (l : list Z) : Z := fold_right Z.add 0 l.

(** The running maximum of [Max], seeded with the first element. *)
Definition running_max {T} {O : Ordered T} (x : T) (l : list T) : T :=
  fold_left (fun max s => if gt s max then s else max) l x.

(** [mapper] applied to the elements of two lists at the same index. *)
Fixpoint zip_with {A B C} (f : A -> B -> C) (xs : list A) (ys : list B)
    : list C :=
  match xs, ys with
  | x :: xs', y :: ys' => f x y :: zip_with f xs' ys'
  | _, _ => []
  end.

(** [f] applied to the first and second element, the third and fourth,
    and so on; an element left alone at the end is dropped. *)
Fixpoint pair_up {A C} (f : A -> A -> C) (xs : list A) : list C :=
  match xs with
  | a :: b :: rest => f a b :: pair_up f rest
  | _ => []
  end.

(** The Fibonacci numbers over the integers. *)
Fixpoint fib_pair (n : nat) : Z * Z :=
  match n with
  | O => (1, 1)
  | S n' => let '(a, b) := fib_pair n' in (b, a + b)
  end.

Definition fib (n : nat) : Z := fst (fib_pair n).

(** The first [n] values the loop of [Fibonaccis] sends when it holds [a]
    and [b], and the [k]-th of them (from 0). *)
Fixpoint fib_from (n : nat) (a b : Z) : list Z :=
  match n with
  | O => []
  | S n' => a :: fib_from n' b (GoInt.add a b)
  end.

Fixpoint Fib_nth (k : nat) (a b : Z) : Z :=
  match k with
  | O => a
  | S k' => Fib_nth k' b (GoInt.add a b)
  end.

(** The [k]-th value [Fibonaccis] sends. *)
Definition Fib_sent (k : nat) : Z := Fib_nth k 1 1.

(** The laws of [>] on an ordered type. *)
Class OrderedLaws (T : Type) {O : Ordered T} : Prop := {
  gt_irrefl : forall x : T, gt x x = false;
  gt_trans : forall x y z : T, gt x y = true -> gt y z = true -> gt x z = true;
  gt_total : forall x y : T, gt x y = false -> gt y x = false -> x = y
}.

Arguments OrderedLaws T {O}.

#[export] Instance int_OrderedLaws : OrderedLaws Z.
Proof.
  split; unfold gt, int_Ordered; intros; lia.
Qed.

(** ** Invariants of the stages *)

(** The goroutine of [Map] is past its loop only when its input is closed. *)
Definition Map_past_loop_ok {T1 T2} {g : goroutine T1} (s : @MapSt T1 T2 g)
    : Prop :=
  match s with
  | MapClose _ u | MapExit _ u => next g u = Closed
  | _ => True
  end.

(** The variable [taken] of the goroutine of [Take]: the number of values
    it has received so far. *)
Definition Take_taken {T} {g : goroutine T} (s : TakeSt g) : Z :=
  match s with
  | TakeRange _ taken _ | TakeSend _ _ taken _
  | TakeClose _ taken _ | TakeExit _ taken _ => taken
  end.

(** The state of the input that the goroutine of [Take] holds. *)
Definition Take_upstream {T} {g : goroutine T} (s : TakeSt g) : St g :=
  match s with
  | TakeRange _ _ u | TakeSend _ _ _ u
  | TakeClose _ _ u | TakeExit _ _ u => u
  end.

(** What holds of [Take] in state [s], when its input started in [u0], has
    handed over [xs] so far, and [ys] was sent on the output. *)
Definition Take_inv {T} (g : goroutine T) (count : Z) (u0 : St g)
    (xs ys : list T) (s : TakeSt g) : Prop :=
  emits g u0 xs (Take_upstream s)
  /\ Take_taken s = Z.of_nat (length xs)
  /\ match s with
     | TakeRange _ taken _ => ys = xs /\ taken <= count
     | TakeSend _ v taken _ => xs = ys ++ [v] /\ taken <= count
     | TakeClose _ taken _ | TakeExit _ taken _ =>
         ys = firstn (Z.to_nat count) xs /\ taken <= count + 1
     end.

Arguments Take_inv {T} g count u0 xs ys s.

(** States of [Take] in which nothing was or will be forwarded: it waits
    for its first receive, or has left the loop after at most one. *)
Definition Take_idle {T} {g : goroutine T} (s : TakeSt g) : Prop :=
  match s with
  | TakeRange _ taken _ => taken = 0
  | TakeSend _ _ _ _ => False
  | TakeClose _ taken _ | TakeExit _ taken _ => 0 <= taken <= 1
  end.

(** Where the goroutines of [From(xs)] and [From(ys)] stand once [Zip] has
    read them up to the first closed channel. *)
Fixpoint Zip_leaves {A B} (xs : list A) (ys : list B) : FromSt A * FromSt B :=
  match xs, ys with
  | [], [] => (FromExit, FromExit)
  | [], _ :: ys' => (FromExit, FromLoop ys')
  | _ :: xs', [] => (FromLoop xs', FromExit)
  | _ :: xs', _ :: ys' => Zip_leaves xs' ys'
  end.

(** ** The helper of the demo that prints a channel of [int]

    [concatInts] is in the demo, beside the library; it is the way the
    demo reads a channel to its end. *)

(** [fmt.Sprintf("%d", elem)] *)
Definition Sprintf_d (elem : Z) : String.string :=
  DecimalString.NilZero.string_of_int (Z.to_int elem).

Section ConcatInts.
Context (g : goroutine Z) (separator : String.string).

(** The loop over [source], with the contents of [builder] and the flag
    [first]. *)
Fixpoint concatInts_loop (fuel : nat) (s : St g) (builder : String.string)
    (first : bool) : outcome String.string :=
  match fuel with
  | O => Pending
  | S fuel' =>
      match next g s with
      | Sending elem k =>
          let builder :=
            if first then builder
            else String.append builder separator in  (* [if !first] *)
          let builder := String.append builder (Sprintf_d elem) in
          concatInts_loop fuel' k builder false
      | Working k => concatInts_loop fuel' k builder first
      | Closed => Ret builder                      (* [builder.String()] *)
      | Parked => Deadlock
      end
  end.

End ConcatInts.

Definition concatInts (separator : String.string) (fuel : nat)
    (source : chan Z) : outcome String.string :=
  match source with
  | None => Ret String.EmptyString                 (* [if source == nil] *)
  | Some g =>
      concatInts_loop g separator fuel (start g) String.EmptyString true
  end.

(** What a function that reads [source] to its end returns, from what
    [collect] shows of [source] with the same fuel: [result] of the values
    delivered when the channel was closed. *)
Definition after_collect {T A} (r : list T * halt) (result : list T -> A)
    : outcome A :=
  match snd r with
  | HClosed => Ret (result (fst r))
  | HParked => Deadlock
  | HFuel => Pending
  end.

(* ------------------------------------------------------------------ *)
(** * Properties *)

(** ** Arithmetic of [int] *)

Lemma wrap_small z : GoInt.in_range z -> GoInt.wrap z = z.
Proof.
  unfold GoInt.in_range, GoInt.wrap, GoInt.min_int, GoInt.max_int. intros H.
  rewrite Z.mod_small; lia.
Qed.

Lemma wrap_in_range z : GoInt.in_range (GoInt.wrap z).
Proof.
  unfold GoInt.in_range, GoInt.wrap, GoInt.min_int, GoInt.max_int.
  pose proof (Z.mod_pos_bound (z + 2 ^ 63) (2 ^ 64)). lia.
Qed.

Lemma wrap_add_l a b : GoInt.wrap (GoInt.wrap a + b) = GoInt.wrap (a + b).
Proof.
  unfold GoInt.wrap.
  replace (((a + 2 ^ 63) mod 2 ^ 64 - 2 ^ 63) + b + 2 ^ 63)
    with ((a + 2 ^ 63) mod 2 ^ 64 + b) by lia.
  replace (a + b + 2 ^ 63) with ((a + 2 ^ 63) + b) by lia.
  rewrite Zplus_mod_idemp_l. reflexivity.
Qed.

Lemma add_small a b : GoInt.in_range (a + b) -> GoInt.add a b = a + b.
Proof. apply wrap_small. Qed.

Lemma incr_small a : 0 <= a < GoInt.max_int -> GoInt.add a 1 = a + 1.
Proof.
  intros H. apply add_small.
  unfold GoInt.in_range, GoInt.min_int, GoInt.max_int in *. lia.
Qed.

(** ** Runs of a goroutine *)

Section Runs.
Context {T : Type} (g : goroutine T).

Lemma emits_app s xs s' ys s'' :
  emits g s xs s' -> emits g s' ys s'' -> emits g s (xs ++ ys) s''.
Proof.
  induction 1; intros H2; simpl.
  - exact H2.
  - eapply emits_work; eauto.
  - eapply emits_send; eauto.
Qed.

Lemma emits_step_work s k : next g s = Working k -> emits g s [] k.
Proof. intros H. eapply emits_work; [exact H | apply emits_refl]. Qed.

Lemma emits_step_send s v k : next g s = Sending v k -> emits g s [v] k.
Proof. intros H. eapply emits_send; [exact H | apply emits_refl]. Qed.

(** More fuel does not change a finished run. *)
Lemma drain_mono fuel : forall s xs s' h,
  drain g fuel s = (xs, s', h) -> h <> HFuel ->
  forall fuel', (fuel <= fuel')%nat -> drain g fuel' s = (xs, s', h).
Proof.
  induction fuel as [|fuel IH]; intros s xs s' h Hd Hh fuel' Hle.
  - simpl in Hd. congruence.
  - destruct fuel' as [|fuel']; [lia|].
    simpl in *. destruct (next g s) as [v k|k| |]; try assumption.
    + destruct (drain g fuel k) as [[xs0 s0] h0] eqn:E.
      inversion Hd; subst.
      rewrite (IH _ _ _ _ E Hh fuel') by lia. reflexivity.
    + apply (IH _ _ _ _ Hd Hh). lia.
Qed.

(** A run that ends with the channel closed is found by [drain]. *)
Lemma drain_closes s xs s' :
  closes_after g s xs s' ->
  exists fuel, drain g fuel s = (xs, s', HClosed).
Proof.
  intros [He Hc].
  induction He as [s | s k xs s' Hn He IH | s v k xs s' Hn He IH].
  - exists 1%nat. simpl. rewrite Hc. reflexivity.
  - destruct (IH Hc) as [fuel D]. exists (S fuel). simpl.
    rewrite Hn. exact D.
  - destruct (IH Hc) as [fuel D]. exists (S fuel). simpl.
    rewrite Hn, D. reflexivity.
Qed.

(** Conversely, what [drain] returns is a run. *)
Lemma drain_emits fuel : forall s xs s' h,
  drain g fuel s = (xs, s', h) -> emits g s xs s'.
Proof.
  induction fuel as [|fuel IH]; intros s xs s' h Hd; simpl in Hd.
  - inversion Hd; subst. apply emits_refl.
  - destruct (next g s) as [v k|k| |] eqn:E.
    + destruct (drain g fuel k) as [[xs0 s0] h0] eqn:E'.
      inversion Hd; subst. eapply emits_send; eauto.
    + eapply emits_work; eauto.
    + inversion Hd; subst. apply emits_refl.
    + inversion Hd; subst. apply emits_refl.
Qed.

Lemma drain_closed_state fuel : forall s xs s',
  drain g fuel s = (xs, s', HClosed) -> next g s' = Closed.
Proof.
  induction fuel as [|fuel IH]; intros s xs s' Hd; simpl in Hd.
  - inversion Hd.
  - destruct (next g s) as [v k|k| |] eqn:E.
    + destruct (drain g fuel k) as [[xs0 s0] h0] eqn:E'.
      inversion Hd; subst. eapply IH; eauto.
    + eapply IH; eauto.
    + inversion Hd; subst. exact E.
    + inversion Hd.
Qed.

(** Runs are deterministic: two runs to a closed channel agree. *)
Lemma closes_after_unique s xs s1 ys s2 :
  closes_after g s xs s1 -> closes_after g s ys s2 -> xs = ys /\ s1 = s2.
Proof.
  intros H1 H2.
  destruct (drain_closes H1) as [f1 D1].
  destruct (drain_closes H2) as [f2 D2].
  assert (D1' : drain g (Nat.max f1 f2) s = (xs, s1, HClosed))
    by (eapply drain_mono; [exact D1 | discriminate | apply Nat.le_max_l]).
  assert (D2' : drain g (Nat.max f1 f2) s = (ys, s2, HClosed))
    by (eapply drain_mono; [exact D2 | discriminate | apply Nat.le_max_r]).
  rewrite D1' in D2'. inversion D2'. auto.
Qed.

End Runs.

(** A run to a closed channel is what [delivers] asks for. *)
Lemma closes_after_delivers {T} (g : goroutine T) xs s' :
  closes_after g (start g) xs s' -> delivers (Some g) xs.
Proof.
  intros H. destruct (drain_closes H) as [fuel D].
  exists fuel. unfold collect. simpl. rewrite D. reflexivity.
Qed.

Lemma delivers_closes_after {T} (c : chan T) xs :
  delivers c xs ->
  exists s', closes_after (sender c) (start (sender c)) xs s'.
Proof.
  intros [fuel D]. unfold collect in D.
  destruct (drain (sender c) fuel (start (sender c))) as [[xs0 s0] h0] eqn:E.
  inversion D; subst. exists s0. split.
  - eapply drain_emits; eauto.
  - eapply drain_closed_state; eauto.
Qed.

(** Once a channel has delivered [xs] and is closed, more fuel shows the
    same. *)
Lemma delivers_stable {T} (c : chan T) xs :
  delivers c xs ->
  exists fuel, forall fuel',
    (fuel <= fuel')%nat -> collect fuel' c = (xs, HClosed).
Proof.
  intros [fuel D]. exists fuel. intros fuel' Hle. unfold collect in *.
  destruct (drain (sender c) fuel (start (sender c))) as [[xs0 s0] h0] eqn:E.
  inversion D; subst.
  erewrite drain_mono; [reflexivity | exact E | discriminate | exact Hle].
Qed.


(** ** From *)

Section FromFacts.
Context {T : Type} (source : list T).

Lemma From_emits (xs rest : list T) :
  emits (From_go source) (FromLoop (xs ++ rest)) xs (FromLoop rest).
Proof.
  induction xs as [|x xs IH]; simpl.
  - apply emits_refl.
  - eapply emits_send; [reflexivity | exact IH].
Qed.

Lemma From_closes_after (xs : list T) :
  closes_after (From_go source) (FromLoop xs) xs FromExit.
Proof.
  split; [|reflexivity].
  pose proof (From_emits xs []) as H. rewrite app_nil_r in H.
  assert (E : emits (From_go source) (FromLoop xs) (xs ++ []) FromExit).
  { eapply emits_app; [exact H|]. apply emits_step_work. reflexivity. }
  rewrite app_nil_r in E. exact E.
Qed.

End FromFacts.

Lemma From_delivers {T} (L : list T) : delivers (From L) L.
Proof. eapply closes_after_delivers. apply From_closes_after. Qed.

(** ** Map *)

Section MapFacts.
Context {T1 T2 : Type} (g : goroutine T1) (mapper : T1 -> T2).

Local Abbreviation M := (Map_go g mapper).

(** Every value the input hands over comes out mapped, and the output is
    closed once the input is. *)
Lemma Map_closes_after u xs u' :
  closes_after g u xs u' ->
  closes_after M (MapRange g u) (map mapper xs) (MapExit g u').
Proof.
  intros [He Hc]. split; [|reflexivity].
  induction He as [s | s k xs s' Hn He IH | s v k xs s' Hn He IH]; simpl.
  - eapply emits_work; [simpl; rewrite Hc; reflexivity|].
    apply emits_step_work. reflexivity.
  - eapply emits_work; [simpl; rewrite Hn; reflexivity|]. exact (IH Hc).
  - eapply emits_work; [simpl; rewrite Hn; reflexivity|].
    eapply emits_send; [reflexivity|]. exact (IH Hc).
Qed.

Lemma Map_past_loop_step s :
  Map_past_loop_ok s ->
  match next M s with
  | Sending _ k | Working k => Map_past_loop_ok k
  | _ => True
  end.
Proof.
  destruct s as [u|v u|u|u]; simpl; intros H; auto.
  destruct (next g u) eqn:E; simpl; auto.
Qed.

Lemma Map_past_loop_run s ys s' :
  emits M s ys s' -> Map_past_loop_ok s -> Map_past_loop_ok s'.
Proof.
  induction 1 as [s | s k xs s' Hn He IH | s v k xs s' Hn He IH];
    intros Hs; auto.
  - apply IH. pose proof (Map_past_loop_step s Hs) as P.
    rewrite Hn in P. exact P.
  - apply IH. pose proof (Map_past_loop_step s Hs) as P.
    rewrite Hn in P. exact P.
Qed.

(** The output of [Map] is closed only when its input is. *)
Lemma Map_closed_only_if_input u ys s' :
  closes_after M (MapRange g u) ys s' ->
  exists u', s' = MapExit g u' /\ next g u' = Closed.
Proof.
  intros [He Hc].
  pose proof (Map_past_loop_run He I) as P.
  destruct s' as [w|v w|w|w]; simpl in Hc.
  - destruct (next g w); discriminate.
  - discriminate.
  - discriminate.
  - exists w. split; [reflexivity | exact P].
Qed.

End MapFacts.

(** C5. For every list [L] and function [mapper], the channel
    [Map(From(L), mapper)] delivers exactly [mapper x] for each [x] of [L],
    in the order of [L], and is then closed; the run that closes it ends
    with the goroutine of [From] past its own [close], and any run of the
    stage that finds the output closed has delivered that sequence and
    finds the input closed too. *)
Theorem Map_From_spec (T1 T2 : Type) (L : list T1) (mapper : T1 -> T2) :
  delivers (Map (From L) mapper) (map mapper L)
  /\ closes_after (Map_go (From_go L) mapper)
       (MapRange (From_go L) (FromLoop L)) (map mapper L)
       (MapExit (From_go L) FromExit)
  /\ (forall fuel ys s',
        drain (Map_go (From_go L) mapper) fuel
          (MapRange (From_go L) (FromLoop L)) = (ys, s', HClosed) ->
        ys = map mapper L /\ s' = MapExit (From_go L) FromExit).
Proof.
  assert (C : closes_after (Map_go (From_go L) mapper)
                (MapRange (From_go L) (FromLoop L)) (map mapper L)
                (MapExit (From_go L) FromExit)).
  { apply Map_closes_after. apply From_closes_after. }
  split; [|split].
  - apply (closes_after_delivers (g := Map_go (From_go L) mapper) C).
  - exact C.
  - intros fuel ys s' D.
    assert (C' : closes_after (Map_go (From_go L) mapper)
                   (MapRange (From_go L) (FromLoop L)) ys s').
    { split; [eapply drain_emits | eapply drain_closed_state]; eauto. }
    apply (closes_after_unique C' C).
Qed.

(** ** Filter *)

Section FilterFacts.
Context {T : Type} (g : goroutine T) (predicate : T -> bool).

Local Abbreviation F := (Filter_go g predicate).

Lemma Filter_closes_after u xs u' :
  closes_after g u xs u' ->
  closes_after F (FilterRange g u) (filter predicate xs) (FilterExit g u').
Proof.
  intros [He Hc]. split; [|reflexivity].
  induction He as [s | s k xs s' Hn He IH | s v k xs s' Hn He IH]; simpl.
  - eapply emits_work; [simpl; rewrite Hc; reflexivity|].
    apply emits_step_work. reflexivity.
  - eapply emits_work; [simpl; rewrite Hn; reflexivity|]. exact (IH Hc).
  - destruct (predicate v) eqn:Ep.
    + eapply emits_work; [simpl; rewrite Hn, Ep; reflexivity|].
      eapply emits_send; [reflexivity|]. exact (IH Hc).
    + eapply emits_work; [simpl; rewrite Hn, Ep; reflexivity|].
      exact (IH Hc).
Qed.

End FilterFacts.

Lemma Filter_From_delivers {T} (L : list T) (predicate : T -> bool) :
  delivers (Filter (From L) predicate) (filter predicate L).
Proof.
  eapply closes_after_delivers with (g := Filter_go (From_go L) predicate).
  apply Filter_closes_after, From_closes_after.
Qed.

(** ** Take *)

Section TakeFacts.
Context {T : Type} (g : goroutine T) (count : Z).

Local Abbreviation K := (Take_go g count).

(** The input closes before more than [count] values were received:
    everything is forwarded. *)
Lemma Take_input_closes u xs u' :
  closes_after g u xs u' ->
  forall taken,
    0 <= taken -> taken + Z.of_nat (length xs) <= count ->
    count <= GoInt.max_int ->
    closes_after K (TakeRange g taken u) xs
      (TakeExit g (taken + Z.of_nat (length xs)) u').
Proof.
  intros [He Hc].
  induction He as [s | s k xs s' Hn He IH | s v k xs s' Hn He IH];
    intros taken H0 Hle Hmax.
  - split; [|reflexivity]. simpl. rewrite Z.add_0_r.
    eapply emits_work; [simpl; rewrite Hc; reflexivity|].
    apply emits_step_work. reflexivity.
  - destruct (IH Hc taken H0 Hle Hmax) as [E _]. split; [|reflexivity].
    eapply emits_work; [simpl; rewrite Hn; reflexivity | exact E].
  - assert (Hlen : Z.of_nat (length (v :: xs)) = 1 + Z.of_nat (length xs))
      by (simpl length; lia).
    rewrite Hlen in *.
    assert (Hi : GoInt.add taken 1 = taken + 1) by (apply incr_small; lia).
    destruct (IH Hc (taken + 1)) as [E _]; try lia.
    split; [|reflexivity].
    eapply emits_work.
    { simpl. rewrite Hn, Hi.
      replace (taken + 1 >? count) with false by (symmetry; lia).
      reflexivity. }
    eapply emits_send; [reflexivity|].
    replace (taken + (1 + Z.of_nat (length xs)))
      with (taken + 1 + Z.of_nat (length xs)) by lia.
    exact E.
Qed.

(** The input hands over one value more than [count]: the stage receives
    that value too, drops it and closes; the input is left just after
    that send. *)
Lemma Take_input_longer u xs u1 y u2 :
  emits g u xs u1 -> next g u1 = Sending y u2 ->
  forall taken,
    0 <= taken -> taken + Z.of_nat (length xs) = count ->
    count < GoInt.max_int ->
    closes_after K (TakeRange g taken u) xs (TakeExit g (count + 1) u2).
Proof.
  intros He Hy.
  induction He as [s | s k xs s' Hn He IH | s v k xs s' Hn He IH];
    intros taken H0 Heq Hmax.
  - simpl in Heq. split; [|reflexivity].
    assert (Hi : GoInt.add taken 1 = taken + 1) by (apply incr_small; lia).
    eapply emits_work.
    { simpl. rewrite Hy, Hi.
      replace (taken + 1 >? count) with true by (symmetry; lia).
      reflexivity. }
    replace (taken + 1) with (count + 1) by lia.
    apply emits_step_work. reflexivity.
  - destruct (IH Hy taken H0 Heq Hmax) as [E _]. split; [|reflexivity].
    eapply emits_work; [simpl; rewrite Hn; reflexivity | exact E].
  - assert (Hlen : Z.of_nat (length (v :: xs)) = 1 + Z.of_nat (length xs))
      by (simpl length; lia).
    rewrite Hlen in *.
    assert (Hi : GoInt.add taken 1 = taken + 1) by (apply incr_small; lia).
    destruct (IH Hy (taken + 1)) as [E _]; try lia.
    split; [|reflexivity].
    eapply emits_work.
    { simpl. rewrite Hn, Hi.
      replace (taken + 1 >? count) with false by (symmetry; lia).
      reflexivity. }
    eapply emits_send; [reflexivity | exact E].
Qed.

(** Whatever the input does and however far the run has got: the values
    sent are the first ones received, in the order received, never more
    than [count] of them; the number of values received is [taken], and it
    never exceeds [count + 1]. *)
Lemma Take_inv_step u0 xs ys s :
  0 <= count < GoInt.max_int ->
  Take_inv g count u0 xs ys s ->
  match next K s with
  | Sending v k => exists xs', Take_inv g count u0 xs' (ys ++ [v]) k
  | Working k => exists xs', Take_inv g count u0 xs' ys k
  | _ => True
  end.
Proof.
  intros Hc (He & Ht & Hs).
  destruct s as [taken u|v taken u|taken u|taken u]; simpl in *.
  - destruct Hs as [-> Hle]. destruct (next g u) as [v k|k| |] eqn:E; auto.
    + assert (Hi : GoInt.add taken 1 = taken + 1)
        by (apply incr_small; lia).
      rewrite Hi.
      assert (He' : emits g u0 (xs ++ [v]) k)
        by (eapply emits_app; [exact He | apply emits_step_send, E]).
      assert (Hl : Z.of_nat (length (xs ++ [v])) = taken + 1)
        by (rewrite length_app; simpl; lia).
      destruct (Z_lt_le_dec count (taken + 1)) as [Hgt|Hle'].
      * replace (taken + 1 >? count) with true by (symmetry; lia).
        exists (xs ++ [v]). repeat split; simpl; auto; try lia.
        replace (Z.to_nat count) with (length xs + 0)%nat by lia.
        rewrite firstn_app_2. simpl. rewrite app_nil_r. reflexivity.
      * replace (taken + 1 >? count) with false by (symmetry; lia).
        exists (xs ++ [v]). repeat split; simpl; auto; lia.
    + exists xs. repeat split; simpl; auto.
      replace xs with (xs ++ []) by apply app_nil_r.
      eapply emits_app; [exact He | apply emits_step_work, E].
    + exists xs. repeat split; simpl; auto; try lia.
      symmetry. apply firstn_all2. lia.
  - destruct Hs as [-> Hle]. exists (ys ++ [v]). repeat split; simpl; auto.
  - exists xs. repeat split; simpl; tauto.
  - exact I.
Qed.

Lemma Take_inv_run s ys' s' :
  emits K s ys' s' ->
  0 <= count < GoInt.max_int ->
  forall u0 xs ys,
    Take_inv g count u0 xs ys s ->
    exists xs', Take_inv g count u0 xs' (ys ++ ys') s'.
Proof.
  induction 1 as [s | s k zs s' Hn He IH | s v k zs s' Hn He IH];
    intros Hc u0 xs ys Hi.
  - exists xs. rewrite app_nil_r. exact Hi.
  - pose proof (Take_inv_step Hc Hi) as P. rewrite Hn in P.
    destruct P as [xs' P]. apply (IH Hc u0 xs' ys P).
  - pose proof (Take_inv_step Hc Hi) as P. rewrite Hn in P.
    destruct P as [xs' P].
    destruct (IH Hc u0 xs' (ys ++ [v]) P) as [xs'' Q].
    exists xs''. rewrite <- app_assoc in Q. exact Q.
Qed.

(** At any point of any run of [Take(input, count)]: the output so far is a
    prefix of the input received so far, holds at most [count] values, and
    at most [count + 1] values were received. *)
Lemma Take_run_bounds ys s' :
  0 <= count < GoInt.max_int ->
  emits K (TakeRange g 0 (start g)) ys s' ->
  exists xs,
    emits g (start g) xs (Take_upstream s')
    /\ Take_taken s' = Z.of_nat (length xs)
    /\ (exists rest, xs = ys ++ rest)
    /\ Z.of_nat (length ys) <= count
    /\ Z.of_nat (length xs) <= count + 1.
Proof.
  intros Hc He.
  assert (I0 : Take_inv g count (start g) [] [] (TakeRange g 0 (start g))).
  { repeat split; simpl; auto; try lia. apply emits_refl. }
  destruct (Take_inv_run He Hc I0) as [xs (E & Ht & Hs)].
  simpl in Hs. exists xs. split; [exact E|]. split; [exact Ht|].
  destruct s' as [taken u|v taken u|taken u|taken u]; simpl in *.
  - destruct Hs as [-> Hle]. split; [exists []; symmetry; apply app_nil_r|].
    lia.
  - destruct Hs as [-> Hle]. split; [exists [v]; reflexivity|].
    rewrite length_app in *. simpl in *. lia.
  - destruct Hs as [-> Hle].
    split; [exists (skipn (Z.to_nat count) xs);
            symmetry; apply firstn_skipn|].
    rewrite length_firstn. lia.
  - destruct Hs as [-> Hle].
    split; [exists (skipn (Z.to_nat count) xs);
            symmetry; apply firstn_skipn|].
    rewrite length_firstn. lia.
Qed.

End TakeFacts.

(** C3. For every slice [L] (its length is an [int]) and every count
    [0 <= n], [Take(From(L), n)] delivers exactly the first
    [min(n, length(L))] elements of [L], in order, and is then closed; with
    [n = 0] it delivers nothing and is closed. *)
Theorem Take_From_spec (T : Type) (L : list T) (n : Z) :
  Z.of_nat (length L) <= GoInt.max_int ->
  0 <= n <= GoInt.max_int ->
  delivers (Take (From L) n)
    (firstn (Z.to_nat (Z.min n (Z.of_nat (length L)))) L)
  /\ delivers (Take (From L) 0) [].
Proof.
  intros HL Hn.
  assert (main : forall m, 0 <= m <= GoInt.max_int ->
            delivers (Take (From L) m)
              (firstn (Z.to_nat (Z.min m (Z.of_nat (length L)))) L)).
  { intros m Hm. unfold Take, From. simpl sender.
    destruct (Z_lt_le_dec m (Z.of_nat (length L))) as [Hlt|Hge].
    - (* the slice is longer than the count *)
      rewrite Z.min_l by lia.
      set (k := Z.to_nat m).
      assert (Hk : (k < length L)%nat) by (unfold k; lia).
      pose proof (firstn_skipn k L) as Hsplit.
      destruct (skipn k L) as [|y rest] eqn:Es.
      { exfalso. apply (f_equal (@length T)) in Es.
        rewrite length_skipn in Es. simpl in Es. lia. }
      eapply closes_after_delivers with (g := Take_go (From_go L) m).
      simpl start.
      eapply Take_input_longer with (u1 := FromLoop (y :: rest)) (y := y).
      + pose proof (From_emits L (firstn k L) (y :: rest)) as E.
        rewrite Hsplit in E. exact E.
      + reflexivity.
      + lia.
      + rewrite length_firstn. unfold k. lia.
      + lia.
    - (* the count covers the whole slice *)
      rewrite Z.min_r by lia. rewrite Nat2Z.id, firstn_all.
      eapply closes_after_delivers with (g := Take_go (From_go L) m).
      simpl start.
      apply Take_input_closes; try lia.
      apply From_closes_after. }
  split.
  - apply main. exact Hn.
  - assert (H0 := main 0). rewrite Z.min_l in H0 by lia.
    simpl in H0. apply H0. unfold GoInt.max_int. lia.
Qed.

Lemma Take_From_spec_witness :
  Z.of_nat (length [10; 20; 30; 40; 50]) <= GoInt.max_int
  /\ 0 <= 2 <= GoInt.max_int
  /\ delivers (Take (From [10; 20; 30; 40; 50]) 2) [10; 20]
  /\ delivers (Take (From [10; 20; 30; 40; 50]) 0) [].
Proof.
  assert (H1 : Z.of_nat (length [10; 20; 30; 40; 50]) <= GoInt.max_int)
    by (vm_compute; discriminate).
  assert (H2 : 0 <= 2 <= GoInt.max_int)
    by (split; vm_compute; discriminate).
  split; [exact H1|]. split; [exact H2|].
  exact (Take_From_spec [10; 20; 30; 40; 50] H1 H2).
Defined.

(** ** Skip *)

Section SkipFacts.
Context {T : Type} (g : goroutine T) (count : Z).

Local Abbreviation K := (Skip_go g count).

(** Of the values the input hands over, those received while
    [skipped <= count] are dropped and all later ones forwarded. *)
Lemma Skip_closes_after u xs u' :
  closes_after g u xs u' ->
  forall skipped,
    0 <= skipped -> skipped + Z.of_nat (length xs) <= GoInt.max_int ->
    closes_after K (SkipRange g skipped u)
      (skipn (Z.to_nat (count - skipped)) xs)
      (SkipExit g (skipped + Z.of_nat (length xs)) u').
Proof.
  intros [He Hc].
  induction He as [s | s k xs s' Hn He IH | s v k xs s' Hn He IH];
    intros skipped H0 Hmax.
  - split; [|reflexivity]. simpl length. rewrite Z.add_0_r, skipn_nil.
    eapply emits_work; [simpl; rewrite Hc; reflexivity|].
    apply emits_step_work. reflexivity.
  - destruct (IH Hc skipped H0 Hmax) as [E _]. split; [|reflexivity].
    eapply emits_work; [simpl; rewrite Hn; reflexivity | exact E].
  - assert (Hlen : Z.of_nat (length (v :: xs)) = 1 + Z.of_nat (length xs))
      by (simpl length; lia).
    rewrite Hlen in *.
    assert (Hi : GoInt.add skipped 1 = skipped + 1)
      by (apply incr_small; lia).
    destruct (IH Hc (skipped + 1)) as [E _]; try lia.
    replace (skipped + (1 + Z.of_nat (length xs)))
      with (skipped + 1 + Z.of_nat (length xs)) by lia.
    split; [|reflexivity].
    destruct (Z_lt_le_dec count (skipped + 1)) as [Hgt|Hle].
    + (* past the skipped prefix: forwarded *)
      replace (Z.to_nat (count - skipped)) with O by lia.
      replace (Z.to_nat (count - (skipped + 1))) with O in E by lia.
      simpl skipn in *.
      eapply emits_work.
      { simpl. rewrite Hn, Hi.
        replace (skipped + 1 >? count) with true by (symmetry; lia).
        reflexivity. }
      eapply emits_send; [reflexivity | exact E].
    + (* still inside the skipped prefix: dropped *)
      replace (Z.to_nat (count - skipped))
        with (S (Z.to_nat (count - (skipped + 1)))) by lia.
      simpl skipn.
      eapply emits_work; [|exact E].
      simpl. rewrite Hn, Hi.
      replace (skipped + 1 >? count) with false by (symmetry; lia).
      reflexivity.
Qed.

End SkipFacts.

(** C6. For every slice [L] (its length is an [int]) and every count
    [0 <= n], [Skip(From(L), n)] delivers exactly [L] without its first
    [min(n, length(L))] elements, the others unchanged and in order, and is
    closed once [From] has closed its channel; with [n = 0] it delivers
    all of [L]. *)
Theorem Skip_From_spec (T : Type) (L : list T) (n : Z) :
  Z.of_nat (length L) <= GoInt.max_int ->
  0 <= n ->
  delivers (Skip (From L) n)
    (skipn (Z.to_nat (Z.min n (Z.of_nat (length L)))) L)
  /\ closes_after (Skip_go (From_go L) n)
       (SkipRange (From_go L) 0 (FromLoop L))
       (skipn (Z.to_nat (Z.min n (Z.of_nat (length L)))) L)
       (SkipExit (From_go L) (Z.of_nat (length L)) FromExit)
  /\ delivers (Skip (From L) 0) L.
Proof.
  intros HL Hn.
  assert (main : forall m, 0 <= m ->
            closes_after (Skip_go (From_go L) m)
              (SkipRange (From_go L) 0 (FromLoop L))
              (skipn (Z.to_nat (Z.min m (Z.of_nat (length L)))) L)
              (SkipExit (From_go L) (Z.of_nat (length L)) FromExit)).
  { intros m Hm.
    pose proof (@Skip_closes_after T (From_go L) m (FromLoop L) L FromExit
                  (From_closes_after L L) 0) as H.
    rewrite Z.sub_0_r, Z.add_0_l in H.
    destruct (Z_lt_le_dec m (Z.of_nat (length L))) as [Hlt|Hge].
    - rewrite Z.min_l by lia. apply H; lia.
    - rewrite Z.min_r by lia. rewrite Nat2Z.id, skipn_all.
      replace (@nil T) with (skipn (Z.to_nat m) L).
      + apply H; lia.
      + apply skipn_all2. lia. }
  split; [|split].
  - eapply closes_after_delivers with (g := Skip_go (From_go L) n).
    apply main, Hn.
  - apply main, Hn.
  - pose proof (main 0 (Z.le_refl 0)) as H0.
    rewrite Z.min_l in H0 by lia. simpl in H0.
    apply (closes_after_delivers (g := Skip_go (From_go L) 0) H0).
Qed.

Lemma Skip_From_spec_witness :
  Z.of_nat (length [10; 20; 30; 40; 50]) <= GoInt.max_int
  /\ 0 <= 2
  /\ delivers (Skip (From [10; 20; 30; 40; 50]) 2) [30; 40; 50]
  /\ closes_after (Skip_go (From_go [10; 20; 30; 40; 50]) 2)
       (SkipRange (From_go [10; 20; 30; 40; 50]) 0
          (FromLoop [10; 20; 30; 40; 50]))
       [30; 40; 50]
       (SkipExit (From_go [10; 20; 30; 40; 50]) 5 FromExit)
  /\ delivers (Skip (From [10; 20; 30; 40; 50]) 0) [10; 20; 30; 40; 50].
Proof.
  assert (H1 : Z.of_nat (length [10; 20; 30; 40; 50]) <= GoInt.max_int)
    by (vm_compute; discriminate).
  assert (H2 : 0 <= 2) by (vm_compute; discriminate).
  split; [exact H1|]. split; [exact H2|].
  exact (Skip_From_spec [10; 20; 30; 40; 50] H1 H2).
Defined.

(** ** Zip *)

Section ZipFacts.
Context {T1 T2 T3 : Type} (A0 : list T1) (B0 : list T2)
        (mapper : T1 -> T2 -> T3).

Local Abbreviation GX := (From_go A0).
Local Abbreviation GY := (From_go B0).
Local Abbreviation K := (Zip_go GX GY mapper).

Lemma Zip_From_closes_after : forall (A : list T1) (B : list T2),
  closes_after K (ZipRecvX GX GY (FromLoop A) (FromLoop B))
    (zip_with mapper A B)
    (ZipExit GX GY (fst (Zip_leaves A B)) (snd (Zip_leaves A B))).
Proof.
  intros A B. split; [|reflexivity]. revert B.
  induction A as [|a A IH]; intros B.
  - (* xs is closed: one more receive on ys, then break *)
    eapply emits_work; [reflexivity|].
    eapply emits_work; [reflexivity|].
    destruct B as [|b B]; simpl.
    + eapply emits_work; [reflexivity|].
      eapply emits_work; [reflexivity|].
      apply emits_step_work. reflexivity.
    + eapply emits_work; [reflexivity|].
      apply emits_step_work. reflexivity.
  - eapply emits_work; [reflexivity|].
    destruct B as [|b B]; simpl.
    + (* ys is closed, after [a] was received from xs *)
      eapply emits_work; [reflexivity|].
      eapply emits_work; [reflexivity|].
      apply emits_step_work. reflexivity.
    + eapply emits_work; [reflexivity|].
      eapply emits_send; [reflexivity|]. apply IH.
Qed.

End ZipFacts.

Lemma zip_with_length {A B C} (f : A -> B -> C) : forall xs ys,
  length (zip_with f xs ys) = Nat.min (length xs) (length ys).
Proof.
  induction xs as [|x xs IH]; intros [|y ys]; simpl; auto.
Qed.

Lemma zip_with_nth_error {A B C} (f : A -> B -> C) : forall xs ys i a b,
  nth_error xs i = Some a -> nth_error ys i = Some b ->
  nth_error (zip_with f xs ys) i = Some (f a b).
Proof.
  induction xs as [|x xs IH]; intros [|y ys] [|i] a b Ha Hb;
    simpl in *; try discriminate.
  - congruence.
  - eauto.
Qed.

Lemma Zip_leaves_longer_ys {A B} : forall (xs : list A) (ys : list B),
  (length xs < length ys)%nat ->
  Zip_leaves xs ys = (FromExit, FromLoop (skipn (S (length xs)) ys)).
Proof.
  induction xs as [|x xs IH]; intros [|y ys] H; simpl in *; try lia.
  - reflexivity.
  - apply IH. lia.
Qed.

Lemma Zip_leaves_longer_xs {A B} : forall (xs : list A) (ys : list B),
  (length ys < length xs)%nat ->
  Zip_leaves xs ys = (FromLoop (skipn (S (length ys)) xs), FromExit).
Proof.
  induction xs as [|x xs IH]; intros [|y ys] H; simpl in *; try lia.
  - reflexivity.
  - apply IH. lia.
Qed.

Lemma Zip_leaves_same_length {A B} : forall (xs : list A) (ys : list B),
  length xs = length ys ->
  Zip_leaves xs ys = (FromExit, FromExit).
Proof.
  induction xs as [|x xs IH]; intros [|y ys] H; simpl in *;
    try discriminate.
  - reflexivity.
  - apply IH. congruence.
Qed.

(** C4. For all lists [A] and [B] and every [mapper],
    [Zip(From(A), From(B), mapper)] delivers exactly
    [min(length(A), length(B))] values, the [i]-th being
    [mapper(A[i], B[i])], and is then closed.  The stage stops at the first
    closed input: of a longer input it has received one element more than
    the shorter one holds, and the rest is never read. *)
Theorem Zip_From_spec (T1 T2 T3 : Type) (A : list T1) (B : list T2)
    (mapper : T1 -> T2 -> T3) :
  delivers (Zip (From A) (From B) mapper) (zip_with mapper A B)
  /\ length (zip_with mapper A B) = Nat.min (length A) (length B)
  /\ (forall i a b,
        nth_error A i = Some a -> nth_error B i = Some b ->
        nth_error (zip_with mapper A B) i = Some (mapper a b))
  /\ closes_after (Zip_go (From_go A) (From_go B) mapper)
       (ZipRecvX (From_go A) (From_go B) (FromLoop A) (FromLoop B))
       (zip_with mapper A B)
       (ZipExit (From_go A) (From_go B)
          (fst (Zip_leaves A B)) (snd (Zip_leaves A B)))
  /\ ((length A < length B)%nat ->
      Zip_leaves A B = (FromExit, FromLoop (skipn (S (length A)) B)))
  /\ ((length B < length A)%nat ->
      Zip_leaves A B = (FromLoop (skipn (S (length B)) A), FromExit))
  /\ (length A = length B -> Zip_leaves A B = (FromExit, FromExit)).
Proof.
  pose proof (Zip_From_closes_after A B mapper A B) as C.
  repeat split.
  - apply (closes_after_delivers
             (g := Zip_go (From_go A) (From_go B) mapper) C).
  - apply zip_with_length.
  - apply zip_with_nth_error.
  - apply C.
  - apply Zip_leaves_longer_ys.
  - apply Zip_leaves_longer_xs.
  - apply Zip_leaves_same_length.
Qed.

(** ** Aggregation functions *)

(** The last element of a non-empty list does not depend on the default. *)
Lemma last_cons_seed {A} : forall (xs : list A) (v d : A),
  last (v :: xs) d = last xs v.
Proof.
  induction xs as [|x xs IH]; intros v d.
  - reflexivity.
  - change (last (v :: x :: xs) d) with (last (x :: xs) d).
    rewrite (IH x d), (IH x v). reflexivity.
Qed.

Section AggregatorFacts.
Context {T : Type} (g : goroutine T).

Lemma recv_closed s s' :
  closes_after g s [] s' ->
  returns (fun fuel => recv g fuel s) (None, s').
Proof.
  intros [He Hc]. remember (@nil T) as xs eqn:Ex.
  induction He as [s | s k xs s' Hn He IH | s v k xs s' Hn He IH].
  - exists 1%nat. intros [|f] Hf; [lia|]. simpl. rewrite Hc. reflexivity.
  - destruct (IH Ex Hc) as [f0 H0]. exists (S f0).
    intros [|f] Hf; [lia|]. simpl. rewrite Hn. apply H0. lia.
  - discriminate.
Qed.

Lemma Last_loop_returns s xs s' :
  closes_after g s xs s' ->
  forall d, returns (fun fuel => Last_loop g fuel s d) (last xs d).
Proof.
  intros [He Hc].
  induction He as [s | s k xs s' Hn He IH | s v k xs s' Hn He IH]; intros d.
  - exists 1%nat. intros [|f] Hf; [lia|]. simpl. rewrite Hc. reflexivity.
  - destruct (IH Hc d) as [f0 H0]. exists (S f0).
    intros [|f] Hf; [lia|]. simpl. rewrite Hn. apply H0. lia.
  - destruct (IH Hc v) as [f0 H0]. exists (S f0).
    intros [|f] Hf; [lia|]. simpl Last_loop. rewrite Hn.
    rewrite H0 by lia. f_equal. symmetry. apply last_cons_seed.
Qed.

Lemma Count_loop_returns s xs s' :
  closes_after g s xs s' ->
  forall c, GoInt.in_range c ->
    returns (fun fuel => Count_loop g fuel s c)
      (GoInt.wrap (c + Z.of_nat (length xs))).
Proof.
  intros [He Hc].
  induction He as [s | s k xs s' Hn He IH | s v k xs s' Hn He IH];
    intros c Hr.
  - exists 1%nat. intros [|f] Hf; [lia|]. simpl. rewrite Hc.
    rewrite Z.add_0_r, wrap_small by exact Hr. reflexivity.
  - destruct (IH Hc c Hr) as [f0 H0]. exists (S f0).
    intros [|f] Hf; [lia|]. simpl. rewrite Hn. apply H0. lia.
  - destruct (IH Hc (GoInt.add c 1) (wrap_in_range _)) as [f0 H0].
    exists (S f0).
    intros [|f] Hf; [lia|]. simpl Count_loop. rewrite Hn.
    rewrite H0 by lia. f_equal. unfold GoInt.add.
    rewrite wrap_add_l. f_equal. simpl length. lia.
Qed.

Lemma Sum_loop_returns {N : Numeric T} s xs s' :
  closes_after g s xs s' ->
  forall ret,
    returns (fun fuel => Sum_loop g fuel s ret) (fold_left num_add xs ret).
Proof.
  intros [He Hc].
  induction He as [s | s k xs s' Hn He IH | s v k xs s' Hn He IH];
    intros ret.
  - exists 1%nat. intros [|f] Hf; [lia|]. simpl. rewrite Hc. reflexivity.
  - destruct (IH Hc ret) as [f0 H0]. exists (S f0).
    intros [|f] Hf; [lia|]. simpl. rewrite Hn. apply H0. lia.
  - destruct (IH Hc (num_add ret v)) as [f0 H0]. exists (S f0).
    intros [|f] Hf; [lia|]. simpl Sum_loop. rewrite Hn.
    rewrite H0 by lia. reflexivity.
Qed.

End AggregatorFacts.

(** What [returns] says is a single value. *)
Lemma returns_unique {A} (f : nat -> outcome A) a b :
  returns f a -> returns f b -> a = b.
Proof.
  intros [n Hn] [m Hm].
  pose proof (Hn (Nat.max n m) (Nat.le_max_l _ _)) as E1.
  pose proof (Hm (Nat.max n m) (Nat.le_max_r _ _)) as E2.
  congruence.
Qed.

(** The [+=] of [int] along a list is the sum of the list, wrapped once. *)
Lemma fold_int_add (xs : list Z) : forall ret,
  GoInt.in_range ret ->
  fold_left GoInt.add xs ret = GoInt.wrap (ret + list_sum xs).
Proof.
  induction xs as [|x xs IH]; intros ret Hr; simpl.
  - rewrite Z.add_0_r, wrap_small by exact Hr. reflexivity.
  - rewrite IH by apply wrap_in_range.
    unfold GoInt.add. rewrite wrap_add_l. f_equal. lia.
Qed.

Section MaxFacts.
Context {T : Type} {O : Ordered T} (g : goroutine T).

Lemma Max_loop_seeded s xs s' :
  closes_after g s xs s' ->
  forall max, returns (fun fuel => Max_loop g fuel s max false)
                (running_max max xs).
Proof.
  intros [He Hc].
  induction He as [s | s k xs s' Hn He IH | s v k xs s' Hn He IH];
    intros max.
  - exists 1%nat. intros [|f] Hf; [lia|]. simpl. rewrite Hc. reflexivity.
  - destruct (IH Hc max) as [f0 H0]. exists (S f0).
    intros [|f] Hf; [lia|]. simpl. rewrite Hn. apply H0. lia.
  - destruct (IH Hc (if gt v max then v else max)) as [f0 H0].
    exists (S f0).
    intros [|f] Hf; [lia|]. simpl Max_loop. rewrite Hn.
    simpl orb. rewrite H0 by lia. reflexivity.
Qed.

(** On entry ([first = true]) the first value received replaces [max]
    whatever [max] holds. *)
Lemma Max_loop_first s xs s' :
  closes_after g s xs s' ->
  forall max, returns (fun fuel => Max_loop g fuel s max true)
                match xs with
                | [] => max
                | x :: rest => running_max x rest
                end.
Proof.
  intros [He Hc].
  induction He as [s | s k xs s' Hn He IH | s v k xs s' Hn He IH];
    intros max.
  - exists 1%nat. intros [|f] Hf; [lia|]. simpl. rewrite Hc. reflexivity.
  - destruct (IH Hc max) as [f0 H0]. exists (S f0).
    intros [|f] Hf; [lia|]. simpl. rewrite Hn. apply H0. lia.
  - destruct (@Max_loop_seeded k xs s' (conj He Hc) v) as [f0 H0].
    exists (S f0).
    intros [|f] Hf; [lia|]. simpl Max_loop. rewrite Hn.
    simpl orb. rewrite H0 by lia. reflexivity.
Qed.

Context {OL : OrderedLaws T}.

Lemma running_max_grows (xs : list T) : forall x y,
  gt y x = false -> gt y (running_max x xs) = false.
Proof.
  induction xs as [|s xs IH]; intros x y Hy; simpl.
  - exact Hy.
  - apply IH. destruct (gt s x) eqn:Es; [|exact Hy].
    destruct (gt y s) eqn:Eys; [|reflexivity].
    rewrite (gt_trans _ _ _ Eys Es) in Hy. discriminate.
Qed.

Lemma running_max_in (xs : list T) : forall x,
  In (running_max x xs) (x :: xs).
Proof.
  induction xs as [|s xs IH]; intros x; simpl.
  - left. reflexivity.
  - destruct (IH (if gt s x then s else x)) as [E|I].
    + destruct (gt s x); [right; left | left]; exact E.
    + right. right. exact I.
Qed.

Lemma running_max_upper (xs : list T) : forall x y,
  In y (x :: xs) -> gt y (running_max x xs) = false.
Proof.
  induction xs as [|s xs IH]; intros x y Hy.
  - destruct Hy as [<-|[]]. simpl. apply gt_irrefl.
  - destruct Hy as [<-|[<-|Hy]].
    + apply running_max_grows, gt_irrefl.
    + simpl. apply running_max_grows.
      destruct (gt s x) eqn:Es; [apply gt_irrefl | exact Es].
    + simpl. apply IH. right. exact Hy.
Qed.

End MaxFacts.

(** C7, as the code has it.  For every slice [L] (its length is an [int]),
    [Count(From(L))] returns [length(L)].  For every numeric element type,
    [Sum(From(L))] returns the elements of [L] added up in order with the
    [+=] of the element type, from its [0].  For [int] that is the
    arithmetic sum of the elements reduced to 64 bits (two's complement),
    and so the arithmetic sum itself whenever that is an [int].  Both
    functions return [0] for the empty slice. *)
Theorem Count_Sum_From_spec (T N : Type) {NN : Numeric N}
    (L : list T) (Ln : list N) (Li : list Z) :
  Z.of_nat (length L) <= GoInt.max_int ->
  returns (fun fuel => Count fuel (From L)) (Z.of_nat (length L))
  /\ returns (fun fuel => Sum fuel (From Ln)) (fold_left num_add Ln num_zero)
  /\ returns (fun fuel => Sum fuel (From Li)) (GoInt.wrap (list_sum Li))
  /\ (GoInt.in_range (list_sum Li) ->
      returns (fun fuel => Sum fuel (From Li)) (list_sum Li))
  /\ returns (fun fuel => Count fuel (From (@nil T))) 0
  /\ returns (fun fuel => Sum fuel (From (@nil Z))) 0.
Proof.
  intros HL.
  assert (R0 : GoInt.in_range 0) by (split; vm_compute; discriminate).
  assert (HC : forall l : list T, Z.of_nat (length l) <= GoInt.max_int ->
            returns (fun fuel => Count fuel (From l)) (Z.of_nat (length l))).
  { intros l Hl. unfold Count. simpl sender. simpl start.
    pose proof (Count_loop_returns (From_closes_after l l) R0) as H.
    simpl in H. rewrite wrap_small in H; [exact H|].
    split; [|exact Hl]. unfold GoInt.min_int. lia. }
  assert (HS : forall l : list Z,
            returns (fun fuel => Sum fuel (From l))
              (GoInt.wrap (list_sum l))).
  { intros l. unfold Sum. simpl sender. simpl start.
    pose proof (Sum_loop_returns (N := int_Numeric)
                  (From_closes_after l l) 0) as H.
    simpl num_add in H. rewrite fold_int_add in H by exact R0.
    exact H. }
  split; [apply HC, HL|].
  split; [apply (Sum_loop_returns (From_closes_after Ln Ln) num_zero)|].
  split; [apply HS|]. split; [|split].
  - intros Hr. rewrite <- (wrap_small Hr). apply HS.
  - apply (HC []). vm_compute. discriminate.
  - apply (HS []).
Qed.

Lemma Count_Sum_From_spec_witness :
  Z.of_nat (length [1; 2; 3; 6; 4; 1; 9; 5; 8]) <= GoInt.max_int
  /\ returns (fun fuel => Count fuel (From [1; 2; 3; 6; 4; 1; 9; 5; 8])) 9
  /\ returns (fun fuel => Sum fuel (From [1; 2; 3; 6; 4; 1; 9; 5; 8])) 39.
Proof.
  assert (H : Z.of_nat (length [1; 2; 3; 6; 4; 1; 9; 5; 8])
              <= GoInt.max_int) by (vm_compute; discriminate).
  split; [exact H|].
  pose proof (Count_Sum_From_spec [1; 2; 3; 6; 4; 1; 9; 5; 8]
                [1; 2; 3; 6; 4; 1; 9; 5; 8]
                [1; 2; 3; 6; 4; 1; 9; 5; 8] H) as (HC & _ & HS & _).
  split; [exact HC | exact HS].
Defined.

(** C7 as stated fails when the sum overflows: the sum of the slice
    [max_int, 1] is [2^63], and [Sum] returns [min_int]. *)
Lemma Sum_overflow_counterexample :
  Sum 4 (From [9223372036854775807; 1]) = Ret (-9223372036854775808)
  /\ list_sum [9223372036854775807; 1] = 9223372036854775808
  /\ ~ returns (fun fuel => Sum fuel (From [9223372036854775807; 1]))
         (list_sum [9223372036854775807; 1]).
Proof.
  split; [reflexivity|]. split; [reflexivity|].
  intros [n Hn].
  pose proof (Hn (Nat.max n 4) (Nat.le_max_l _ _)) as E.
  assert (D : Sum (Nat.max n 4) (From [9223372036854775807; 1])
              = Ret (-9223372036854775808)).
  { destruct (Nat.max n 4) as [|[|[|[|m]]]] eqn:Em; try lia. reflexivity. }
  rewrite D in E. discriminate E.
Qed.

(** C8. When the input is closed before any value arrives, [First], [Last]
    and [Max] return the zero value of the element type.  When the input
    delivers [x], then [xs], and is closed, [Max] returns the running
    maximum seeded with [x] (whatever the zero value is): an element of
    the input above which, in the order of the element type, there is no
    element of the input. *)
Theorem aggregators_empty_and_Max_spec (T : Type) {Z0 : Zero T}
    {O : Ordered T} (c d : chan T) (x : T) (xs : list T) :
  OrderedLaws T ->
  delivers c [] ->
  delivers d (x :: xs) ->
  returns (fun fuel => First fuel c) zero
  /\ returns (fun fuel => Last fuel c) zero
  /\ returns (fun fuel => Max fuel c) zero
  /\ returns (fun fuel => Max fuel d) (running_max x xs)
  /\ In (running_max x xs) (x :: xs)
  /\ (forall y, In y (x :: xs) -> gt y (running_max x xs) = false).
Proof.
  intros OL Hc Hd.
  destruct (delivers_closes_after Hc) as [sc Cc].
  destruct (delivers_closes_after Hd) as [sd Cd].
  repeat split.
  - unfold First. destruct (recv_closed Cc) as [f0 H0].
    exists f0. intros f Hf. rewrite (H0 f Hf). reflexivity.
  - apply (Last_loop_returns Cc zero).
  - apply (Max_loop_first Cc zero).
  - apply (Max_loop_first Cd zero).
  - apply running_max_in.
  - apply running_max_upper.
Qed.

Lemma aggregators_empty_and_Max_spec_witness :
  returns (fun fuel => First fuel (From (@nil Z))) 0
  /\ returns (fun fuel => Last fuel (From (@nil Z))) 0
  /\ returns (fun fuel => Max fuel (From (@nil Z))) 0
  /\ returns (fun fuel => Max fuel (From [-3; -1; -4])) (-1)
  /\ In (-1) [-3; -1; -4]
  /\ (forall y, In y [-3; -1; -4] -> gt y (-1) = false).
Proof.
  exact (@aggregators_empty_and_Max_spec Z _ _
           (From []) (From [-3; -1; -4]) (-3) [-1; -4]
           int_OrderedLaws
           (ex_intro _ 2%nat eq_refl)
           (ex_intro _ 5%nat eq_refl)).
Defined.

(** ** Fibonaccis *)

Lemma fib_from_nth (n : nat) : forall a b,
  fib_from n a b = map (fun k => Fib_nth k a b) (seq 0 n).
Proof.
  induction n as [|n IH]; intros a b.
  - reflexivity.
  - simpl. f_equal. rewrite IH, <- seq_shift, map_map. reflexivity.
Qed.

Lemma Fib_nth_rec (k : nat) : forall a b,
  Fib_nth (S (S k)) a b = GoInt.add (Fib_nth k a b) (Fib_nth (S k) a b).
Proof.
  induction k as [|k IH]; intros a b.
  - reflexivity.
  - change (Fib_nth (S (S (S k))) a b)
      with (Fib_nth (S (S k)) b (GoInt.add a b)).
    rewrite IH. reflexivity.
Qed.

(** In its loop the goroutine sends at every step and stays in the loop. *)
Lemma Fib_loop_drain (fuel : nat) : forall a b,
  fst (fst (drain Fib_go fuel (FibLoop a b)))
    = fib_from fuel (GoInt.add a b) (GoInt.add b (GoInt.add a b))
  /\ snd (drain Fib_go fuel (FibLoop a b)) = HFuel.
Proof.
  induction fuel as [|fuel IH]; intros a b.
  - split; reflexivity.
  - simpl drain.
    destruct (IH b (GoInt.add a b)) as [H1 H2].
    destruct (drain Fib_go fuel (FibLoop b (GoInt.add a b)))
      as [[xs s] h].
    simpl in *. subst. split; reflexivity.
Qed.

Lemma Fib_collect (fuel : nat) :
  collect fuel Fibonaccis = (fib_from fuel 1 1, HFuel).
Proof.
  unfold collect. simpl sender. simpl start.
  destruct fuel as [|[|fuel]]; try reflexivity.
  simpl drain.
  destruct (Fib_loop_drain fuel 1 1) as [H1 H2].
  destruct (drain Fib_go fuel (FibLoop 1 1)) as [[xs s] h].
  simpl in *. subst. reflexivity.
Qed.

(** C9, as the code has it.  After any number of steps [Fibonaccis] has
    sent that many values and is still running: it never closes its
    channel.  The values are 1, 1 and then each the sum of the two before
    it in 64-bit [int] arithmetic, which wraps around; the first 92 of them
    are the Fibonacci numbers themselves.  [Take(Fibonaccis(), 10)]
    delivers exactly 1, 1, 2, 3, 5, 8, 13, 21, 34, 55 and is then closed. *)
Theorem Fibonaccis_spec :
  (forall fuel,
     collect fuel Fibonaccis = (map Fib_sent (seq 0 fuel), HFuel))
  /\ (forall xs, ~ delivers Fibonaccis xs)
  /\ Fib_sent 0 = 1
  /\ Fib_sent 1 = 1
  /\ (forall k, Fib_sent (S (S k))
                = GoInt.add (Fib_sent k) (Fib_sent (S k)))
  /\ (forall k, (k < 92)%nat -> Fib_sent k = fib k)
  /\ map Fib_sent (seq 0 8) = [1; 1; 2; 3; 5; 8; 13; 21]
  /\ delivers (Take Fibonaccis 10) [1; 1; 2; 3; 5; 8; 13; 21; 34; 55].
Proof.
  assert (C : forall fuel,
            collect fuel Fibonaccis = (map Fib_sent (seq 0 fuel), HFuel)).
  { intros fuel. rewrite Fib_collect, fib_from_nth. reflexivity. }
  split; [exact C|]. split; [|split; [|split; [|split; [|split; [|split]]]]].
  - intros xs [fuel D]. rewrite C in D. discriminate D.
  - reflexivity.
  - reflexivity.
  - intros k. apply Fib_nth_rec.
  - intros k Hk.
    assert (A : forallb (fun i => Fib_sent i =? fib i) (seq 0 92) = true)
      by (vm_compute; reflexivity).
    rewrite forallb_forall in A. apply Z.eqb_eq, A, in_seq. lia.
  - reflexivity.
  - exists 32%nat. vm_compute. reflexivity.
Qed.

(** C9 as stated fails at the 93rd value: the two values before it add up
    to more than [max_int], and the value sent is negative. *)
Lemma Fibonaccis_overflow_counterexample :
  nth 90 (fst (collect 93 Fibonaccis)) 0 = 4660046610375530309
  /\ nth 91 (fst (collect 93 Fibonaccis)) 0 = 7540113804746346429
  /\ nth 92 (fst (collect 93 Fibonaccis)) 0 = -6246583658587674878
  /\ nth 92 (fst (collect 93 Fibonaccis)) 0
     <> nth 90 (fst (collect 93 Fibonaccis)) 0
        + nth 91 (fst (collect 93 Fibonaccis)) 0.
Proof.
  repeat split; try (vm_compute; reflexivity).
  vm_compute. discriminate.
Qed.

(** ** More on runs *)

Section MoreRuns.
Context {T : Type} (g : goroutine T).

(** A run that hands over [xs1], then [y], passes through the state in
    which the sender is blocked in the send of [y]. *)
Lemma emits_split_send y rest s' : forall xs1 s,
  emits g s (xs1 ++ y :: rest) s' ->
  exists u1 u2,
    emits g s xs1 u1 /\ next g u1 = Sending y u2 /\ emits g u2 rest s'.
Proof.
  intros xs1 s He. remember (xs1 ++ y :: rest) as l eqn:El.
  revert xs1 El.
  induction He as [s | s k xs s' Hn He IH | s v k xs s' Hn He IH];
    intros xs1 El.
  - destruct xs1; discriminate El.
  - destruct (IH xs1 El) as (u1 & u2 & E1 & N & E2).
    exists u1, u2. split; [|split]; auto.
    eapply emits_work; eauto.
  - destruct xs1 as [|x xs1]; simpl in El; inversion El; subst.
    + exists s, k. split; [apply emits_refl|]. split; assumption.
    + destruct (IH xs1 eq_refl) as (u1 & u2 & E1 & N & E2).
      exists u1, u2. split; [|split]; auto.
      eapply emits_send; eauto.
Qed.

(** The first value of a run that is not empty. *)
Lemma emits_first_send y rest s s' :
  emits g s (y :: rest) s' ->
  exists u1 u2,
    emits g s [] u1 /\ next g u1 = Sending y u2 /\ emits g u2 rest s'.
Proof. intros He. apply emits_split_send with (xs1 := []). exact He. Qed.

Lemma recv_value s u1 v u2 :
  emits g s [] u1 -> next g u1 = Sending v u2 ->
  returns (fun fuel => recv g fuel s) (Some v, u2).
Proof.
  intros He Hv. remember (@nil T) as xs eqn:Ex.
  induction He as [s | s k xs s' Hn He IH | s w k xs s' Hn He IH].
  - exists 1%nat. intros [|f] Hf; [lia|]. simpl. rewrite Hv. reflexivity.
  - destruct (IH Ex Hv) as [f0 H0]. exists (S f0).
    intros [|f] Hf; [lia|]. simpl. rewrite Hn. apply H0. lia.
  - discriminate.
Qed.

End MoreRuns.

Lemma collect_drain {T} (c : chan T) (fuel : nat) :
  collect fuel c
  = (fst (fst (drain (sender c) fuel (start (sender c)))),
     snd (drain (sender c) fuel (start (sender c)))).
Proof.
  unfold collect.
  destruct (drain (sender c) fuel (start (sender c))) as [[xs s] h].
  reflexivity.
Qed.

Lemma nil_never_delivers {T} (xs : list T) : ~ delivers None xs.
Proof. intros [[|fuel] D]; discriminate D. Qed.

Section RunsAndFuel.
Context {T : Type} (g : goroutine T).

(** A run is found by [drain] with just the fuel for its steps. *)
Lemma emits_drain s xs s' :
  emits g s xs s' -> exists fuel, drain g fuel s = (xs, s', HFuel).
Proof.
  induction 1 as [s | s k xs s' Hn He [fuel IH] | s v k xs s' Hn He [fuel IH]].
  - exists O. reflexivity.
  - exists (S fuel). simpl. rewrite Hn. exact IH.
  - exists (S fuel). simpl. rewrite Hn, IH. reflexivity.
Qed.

End RunsAndFuel.

(** What [collect] shows of a channel is a run of its sender. *)
Lemma collect_emits {T} (c : chan T) (fuel : nat) :
  exists s', emits (sender c) (start (sender c)) (fst (collect fuel c)) s'.
Proof.
  rewrite collect_drain. simpl fst.
  destruct (drain (sender c) fuel (start (sender c))) as [[xs s] h] eqn:E.
  exists s. simpl. eapply drain_emits; eauto.
Qed.

Lemma emits_collect {T} (g : goroutine T) xs s' :
  emits g (start g) xs s' -> exists fuel, fst (collect fuel (Some g)) = xs.
Proof.
  intros He. destruct (emits_drain He) as [fuel D].
  exists fuel. rewrite collect_drain. simpl. rewrite D. reflexivity.
Qed.

(** ** Take with a negative count *)

Section TakeNegative.
Context {T : Type} (g : goroutine T) (n : Z) (Hn : n < 0).

Lemma Take_negative_drain (fuel : nat) : forall s : TakeSt g,
  Take_idle s ->
  drain (Take_go g n) fuel s = drain (Take_go g 0) fuel s
  /\ fst (fst (drain (Take_go g n) fuel s)) = []
  /\ Take_idle (snd (fst (drain (Take_go g n) fuel s))).
Proof.
  induction fuel as [|fuel IH]; intros s Hs.
  - simpl. auto.
  - destruct s as [taken u|v taken u|taken u|taken u]; simpl in Hs.
    + subst taken. simpl drain.
      destruct (next g u) as [v k|k| |] eqn:E; simpl.
      * change (GoInt.add 0 1) with 1.
        replace (1 >? n) with true by (symmetry; lia).
        change (1 >? 0) with true. simpl.
        apply (IH (TakeClose g 1 k)). simpl. lia.
      * apply (IH (TakeRange g 0 k)). reflexivity.
      * apply (IH (TakeClose g 0 u)). simpl. lia.
      * auto.
    + contradiction.
    + apply (IH (TakeExit g taken u)). exact Hs.
    + simpl. auto.
Qed.

(** The output is closed only after a receive from the input has come
    back: with a value, or with the input closed. *)
Lemma Take_closed_only_after_receive (fuel : nat) : forall u ys s',
  drain (Take_go g n) fuel (TakeRange g 0 u) = (ys, s', HClosed) ->
  (exists u1 v u2, emits g u [] u1 /\ next g u1 = Sending v u2)
  \/ (exists u1, closes_after g u [] u1).
Proof.
  induction fuel as [|fuel IH]; intros u ys s' D.
  - discriminate D.
  - simpl in D. destruct (next g u) as [v k|k| |] eqn:E; simpl in D.
    + left. exists u, v, k. split; [apply emits_refl | exact E].
    + destruct (IH _ _ _ D) as [(u1 & v & u2 & E1 & N1)|(u1 & E1 & C1)].
      * left. exists u1, v, u2. split; [|exact N1].
        eapply emits_work; eauto.
      * right. exists u1. split; [|exact C1]. eapply emits_work; eauto.
    + right. exists u. split; [apply emits_refl | exact E].
    + discriminate D.
Qed.

Lemma Take_negative_after_value u u1 v u2 :
  emits g u [] u1 -> next g u1 = Sending v u2 ->
  closes_after (Take_go g n) (TakeRange g 0 u) [] (TakeExit g 1 u2).
Proof.
  intros He Hv. split; [|reflexivity].
  remember (@nil T) as xs eqn:Ex.
  induction He as [s | s k xs s' Hk He IH | s w k xs s' Hk He IH].
  - eapply emits_work.
    { simpl. rewrite Hv. change (GoInt.add 0 1) with 1.
      replace (1 >? n) with true by (symmetry; lia). reflexivity. }
    apply emits_step_work. reflexivity.
  - eapply emits_work; [simpl; rewrite Hk; reflexivity|].
    apply IH; assumption.
  - discriminate.
Qed.

Lemma Take_negative_after_close u u1 :
  closes_after g u [] u1 ->
  closes_after (Take_go g n) (TakeRange g 0 u) [] (TakeExit g 0 u1).
Proof.
  intros [He Hc]. split; [|reflexivity].
  remember (@nil T) as xs eqn:Ex.
  induction He as [s | s k xs s' Hk He IH | s w k xs s' Hk He IH].
  - eapply emits_work; [simpl; rewrite Hc; reflexivity|].
    apply emits_step_work. reflexivity.
  - eapply emits_work; [simpl; rewrite Hk; reflexivity|].
    apply IH; assumption.
  - discriminate.
Qed.

End TakeNegative.

(** C10, as the code has it.  For every non-nil input [Some g] and every
    count [n < 0], the channel [Take(input, n)] returns is not nil: it is
    the channel fed by the goroutine of [Take].  No value is ever sent on
    it, and it shows at every moment what [Take(input, 0)] shows.  It is
    closed exactly when the input has sent a first value or has been
    closed: the goroutine receives once ([taken] never exceeds 1), drops
    the value if there is one, and closes the output, leaving the input
    just after that first send.  On an input that never sends and is never
    closed the output is never closed. *)
Theorem Take_negative_spec (T : Type) (g : goroutine T) (n : Z) :
  n < 0 ->
  Take (Some g) n = Some (Take_go g n)
  /\ (forall fuel, fst (collect fuel (Take (Some g) n)) = [])
  /\ (forall fuel,
        collect fuel (Take (Some g) n) = collect fuel (Take (Some g) 0))
  /\ (delivers (Take (Some g) n) []
      <-> (exists fuel v rest, fst (collect fuel (Some g)) = v :: rest)
          \/ delivers (Some g) [])
  /\ (forall xs, delivers (Take (Some g) n) xs -> xs = [])
  /\ (forall fuel,
        drain (Take_go g n) fuel (TakeRange g 0 (start g))
        = drain (Take_go g 0) fuel (TakeRange g 0 (start g)))
  /\ (forall fuel,
        0 <= Take_taken
               (snd (fst (drain (Take_go g n) fuel
                            (TakeRange g 0 (start g))))) <= 1)
  /\ (forall u1 v u2,
        emits g (start g) [] u1 -> next g u1 = Sending v u2 ->
        closes_after (Take_go g n) (TakeRange g 0 (start g)) []
          (TakeExit g 1 u2))
  /\ (forall u1,
        closes_after g (start g) [] u1 ->
        closes_after (Take_go g n) (TakeRange g 0 (start g)) []
          (TakeExit g 0 u1)).
Proof.
  intros Hn.
  assert (I0 : Take_idle (TakeRange g 0 (start g))) by reflexivity.
  assert (D := fun fuel => Take_negative_drain Hn fuel _ I0).
  assert (Sent : forall fuel, fst (collect fuel (Take (Some g) n)) = []).
  { intros fuel. destruct (D fuel) as (_ & E & _).
    unfold collect, Take. simpl sender. simpl start.
    destruct (drain (Take_go g n) fuel (TakeRange g 0 (start g)))
      as [[xs s] h]. exact E. }
  split; [reflexivity|]. split; [exact Sent|].
  split; [|split; [|split; [|split; [|split; [|split]]]]].
  - intros fuel. destruct (D fuel) as (E & _ & _).
    unfold collect, Take. simpl sender. simpl start.
    rewrite E. reflexivity.
  - split.
    + intros [fuel Dv]. unfold collect, Take in Dv.
      simpl sender in Dv. simpl start in Dv.
      destruct (drain (Take_go g n) fuel (TakeRange g 0 (start g)))
        as [[ys s] h] eqn:E.
      inversion Dv; subst.
      apply Take_closed_only_after_receive in E.
      destruct E as [(u1 & v & u2 & E1 & N1)|(u1 & C1)].
      * left.
        assert (E2 : emits g (start g) ([] ++ [v]) u2)
          by (eapply emits_app; [exact E1 | apply emits_step_send, N1]).
        destruct (emits_collect E2) as [f Hf].
        exists f, v, []. exact Hf.
      * right. apply (closes_after_delivers C1).
    + intros [(fuel & v & rest & Hc)|Hd].
      * destruct (collect_emits (Some g) fuel) as [s' He].
        rewrite Hc in He. simpl in He.
        destruct (emits_first_send He) as (u1 & u2 & E1 & N1 & _).
        eapply closes_after_delivers with (g := Take_go g n).
        eapply Take_negative_after_value; eauto.
      * destruct (delivers_closes_after Hd) as [u1 C1]. simpl in C1.
        eapply closes_after_delivers with (g := Take_go g n).
        eapply Take_negative_after_close; eauto.
  - intros xs [fuel Dv]. rewrite <- (Sent fuel), Dv. reflexivity.
  - intros fuel. apply (D fuel).
  - intros fuel. destruct (D fuel) as (_ & _ & I).
    destruct (snd (fst (drain (Take_go g n) fuel
                          (TakeRange g 0 (start g)))))
      as [taken u|v taken u|taken u|taken u]; simpl in *; lia.
  - intros u1 v u2 He Hv. eapply Take_negative_after_value; eauto.
  - intros u1 C1. eapply Take_negative_after_close; eauto.
Qed.

Lemma Take_negative_spec_witness :
  -1 < 0
  /\ Take (From [7; 8; 9]) (-1) = Some (Take_go (From_go [7; 8; 9]) (-1))
  /\ (forall fuel, fst (collect fuel (Take (From [7; 8; 9]) (-1))) = [])
  /\ (forall fuel,
        collect fuel (Take (From [7; 8; 9]) (-1))
        = collect fuel (Take (From [7; 8; 9]) 0))
  /\ delivers (Take (From [7; 8; 9]) (-1)) []
  /\ closes_after (Take_go (From_go [7; 8; 9]) (-1))
       (TakeRange (From_go [7; 8; 9]) 0 (FromLoop [7; 8; 9])) []
       (TakeExit (From_go [7; 8; 9]) 1 (FromLoop [8; 9])).
Proof.
  assert (H : -1 < 0) by reflexivity.
  split; [exact H|].
  pose proof (Take_negative_spec (From_go [7; 8; 9]) H)
    as (I & A & B & Cl & _ & _ & _ & C & _).
  split; [exact I|]. split; [exact A|]. split; [exact B|]. split.
  - apply (proj2 Cl). left. exists 1%nat, 7, []. reflexivity.
  - apply (C (FromLoop [7; 8; 9]) 7 (FromLoop [8; 9])).
    + apply emits_refl.
    + reflexivity.
Defined.

(** C10 as stated fails on an input that is not nil and never sends nor is
    closed, such as the channel [Take(nil, 3)] returns: [Take] of it with
    the count [-1] blocks in its first receive and never closes its
    output, so it does not show what a closed empty channel shows. *)
Lemma Take_negative_blocked_counterexample :
  Take (@None (goroutine Z)) 3 = Some (Take_go (nil_sender Z) 3)
  /\ (forall fuel,
        collect (S fuel) (Take (Take (@None (goroutine Z)) 3) (-1))
        = ([], HParked))
  /\ ~ delivers (Take (Take (@None (goroutine Z)) 3) (-1)) [].
Proof.
  split; [reflexivity|]. split; [reflexivity|].
  intros [fuel D]. destruct fuel; discriminate D.
Qed.

(** ** Nil inputs *)

(** C1, on the code.  [Map], [Filter] and [Zip] return nil for a nil input
    and start no goroutine.  [Take] and [Skip] have no such check: for a
    nil input they return a channel that is not nil, and their goroutine
    blocks for ever in its receive from the nil channel, so the channel
    returned never delivers anything and is never closed. *)
Theorem nil_input_behaviour (T1 T2 T3 : Type) (mapper : T1 -> T2)
    (predicate : T1 -> bool) (combiner : T1 -> T2 -> T3)
    (xs : chan T1) (ys : chan T2) (n : Z) :
  Map None mapper = None
  /\ Filter None predicate = None
  /\ Zip None ys combiner = None
  /\ Zip xs None combiner = None
  /\ Take (@None (goroutine T1)) n = Some (Take_go (nil_sender T1) n)
  /\ Skip (@None (goroutine T1)) n = Some (Skip_go (nil_sender T1) n)
  /\ (forall fuel,
        collect (S fuel) (Take (@None (goroutine T1)) n) = ([], HParked))
  /\ (forall fuel,
        collect (S fuel) (Skip (@None (goroutine T1)) n) = ([], HParked))
  /\ (forall l, ~ delivers (Take (@None (goroutine T1)) n) l)
  /\ (forall l, ~ delivers (Skip (@None (goroutine T1)) n) l).
Proof.
  repeat split; try reflexivity.
  - destruct xs; reflexivity.
  - intros l [fuel D]. destruct fuel; discriminate D.
  - intros l [fuel D]. destruct fuel; discriminate D.
Qed.

(** ** Take reads one value more than it forwards *)

(** C2, on the code.  [Take(From([1,2,3,4,5]), 2)] delivers 1 and 2 and is
    closed, but its goroutine has then received three values ([taken] is 3):
    the value 3 was received and dropped, and the goroutine of [From] is
    left blocked in the send of 4, its fourth value.  In general, for a
    slice that holds [xs], then [y], then [rest], [Take] with the count
    [length(xs)] delivers [xs] and closes having received [y] as well:
    [From] is left with [rest] only. *)
Theorem Take_receives_count_plus_one :
  drain (Take_go (From_go [1; 2; 3; 4; 5]) 2) 9
    (TakeRange (From_go [1; 2; 3; 4; 5]) 0 (FromLoop [1; 2; 3; 4; 5]))
  = ([1; 2],
     TakeExit (From_go [1; 2; 3; 4; 5]) 3 (FromLoop [4; 5]),
     HClosed)
  /\ next (From_go [1; 2; 3; 4; 5]) (FromLoop [4; 5])
     = Sending 4 (FromLoop [5])
  /\ (forall (T : Type) (xs : list T) (y : T) (rest : list T),
        Z.of_nat (length xs) < GoInt.max_int ->
        closes_after
          (Take_go (From_go (xs ++ y :: rest)) (Z.of_nat (length xs)))
          (TakeRange (From_go (xs ++ y :: rest)) 0
             (FromLoop (xs ++ y :: rest)))
          xs
          (TakeExit (From_go (xs ++ y :: rest))
             (Z.of_nat (length xs) + 1) (FromLoop rest))).
Proof.
  split; [reflexivity|]. split; [reflexivity|].
  intros T xs y rest Hlen.
  eapply Take_input_longer with (u1 := FromLoop (y :: rest)) (y := y).
  - apply From_emits.
  - reflexivity.
  - lia.
  - lia.
  - exact Hlen.
Qed.

(** ** The examples of the demo

    The values [demo.go] prints for the slice [1, 2, 3, 6, 4, 1, 9, 5, 8]
    and for [Fibonaccis]. *)

Example demo_squares_of_evens :
  collect 40
    (Filter (Map (From [1; 2; 3; 6; 4; 1; 9; 5; 8]) (fun i => GoInt.mul i i)) Z.even)
  = ([4; 36; 16; 64], HClosed).
Proof. reflexivity. Qed.

Example demo_aggregates :
  Max 11 (From [1; 2; 3; 6; 4; 1; 9; 5; 8]) = Ret 9
  /\ First 11 (From [1; 2; 3; 6; 4; 1; 9; 5; 8]) = Ret 1
  /\ Last 11 (From [1; 2; 3; 6; 4; 1; 9; 5; 8]) = Ret 8
  /\ Count 11 (From [1; 2; 3; 6; 4; 1; 9; 5; 8]) = Ret 9
  /\ Sum 11 (From [1; 2; 3; 6; 4; 1; 9; 5; 8]) = Ret 39
  /\ Sum 11 (Take (From [1; 2; 3; 6; 4; 1; 9; 5; 8]) 3) = Ret 6
  /\ Sum 30 (Skip (From [1; 2; 3; 6; 4; 1; 9; 5; 8]) (9 - 2)) = Ret 13.
Proof. repeat split; vm_compute; reflexivity. Qed.

Example demo_fibonaccis :
  First 10 (Skip Fibonaccis 4) = Ret 5
  /\ collect 40 (Take (Skip Fibonaccis 4) 10)
     = ([5; 8; 13; 21; 34; 55; 89; 144; 233; 377], HClosed)
  /\ collect 40 (Take (Map Fibonaccis (fun i => GoInt.mul i i)) 10)
     = ([1; 1; 4; 9; 25; 64; 169; 441; 1156; 3025], HClosed)
  /\ Count 1000 Fibonaccis = Pending.
Proof. repeat split; vm_compute; reflexivity. Qed.

Example demo_offset_products :
  collect 60
    (Zip (From [1; 2; 3; 6; 4; 1; 9; 5; 8])
         (Skip (From [1; 2; 3; 6; 4; 1; 9; 5; 8]) 1) GoInt.mul)
  = ([2; 6; 18; 24; 4; 9; 45; 40], HClosed).
Proof. vm_compute. reflexivity. Qed.

(* ------------------------------------------------------------------ *)
(** * Further properties of the library *)

(** ** The aggregation functions against what the channel delivers *)

Section LoopsAndDrain.
Context {T : Type} (g : goroutine T).

Local Abbreviation seen fuel s :=
  (fst (fst (drain g fuel s)), snd (drain g fuel s)).

Lemma Count_loop_drain (fuel : nat) : forall s count,
  Count_loop g fuel s count
  = after_collect (seen fuel s)
      (fun xs => fold_left (fun c _ => GoInt.add c 1) xs count).
Proof.
  induction fuel as [|fuel IH]; intros s count; simpl.
  - reflexivity.
  - destruct (next g s) as [v k|k| |]; simpl; try reflexivity.
    + rewrite IH. destruct (drain g fuel k) as [[xs s'] h].
      destruct h; reflexivity.
    + apply IH.
Qed.

Lemma Sum_loop_drain {N : Numeric T} (fuel : nat) : forall s ret,
  Sum_loop g fuel s ret
  = after_collect (seen fuel s) (fun xs => fold_left num_add xs ret).
Proof.
  induction fuel as [|fuel IH]; intros s ret; simpl.
  - reflexivity.
  - destruct (next g s) as [v k|k| |]; simpl; try reflexivity.
    + rewrite IH. destruct (drain g fuel k) as [[xs s'] h].
      destruct h; reflexivity.
    + apply IH.
Qed.

Lemma Last_loop_drain (fuel : nat) : forall s d,
  Last_loop g fuel s d = after_collect (seen fuel s) (fun xs => last xs d).
Proof.
  induction fuel as [|fuel IH]; intros s d; simpl.
  - reflexivity.
  - destruct (next g s) as [v k|k| |]; simpl; try reflexivity.
    + rewrite IH. destruct (drain g fuel k) as [[xs s'] h].
      destruct h; try reflexivity.
      unfold after_collect. simpl fst. simpl snd.
      rewrite last_cons_seed. reflexivity.
    + apply IH.
Qed.

Lemma Max_loop_drain {O : Ordered T} (fuel : nat) : forall s max first,
  Max_loop g fuel s max first
  = after_collect (seen fuel s)
      (fun xs =>
         match xs with
         | [] => max
         | x :: rest => running_max (if first || gt x max then x else max) rest
         end).
Proof.
  induction fuel as [|fuel IH]; intros s max first; simpl.
  - reflexivity.
  - destruct (next g s) as [v k|k| |]; simpl; try reflexivity.
    + rewrite IH. destruct (drain g fuel k) as [[xs s'] h].
      destruct h; try reflexivity.
      unfold after_collect. simpl fst. simpl snd.
      destruct xs; reflexivity.
    + apply IH.
Qed.

End LoopsAndDrain.

(** X1.  The aggregation functions work on the output of any pipeline:
    when a channel delivers [xs] (of a length that is an [int]) and is
    closed, [Count] returns the length of [xs] and [Sum] returns the
    elements of [xs] added up in order with the [+=] of the element type,
    from its [0]. *)
Theorem Count_Sum_any_channel (T : Type) {N : Numeric T} (c : chan T)
    (xs : list T) :
  delivers c xs ->
  Z.of_nat (length xs) <= GoInt.max_int ->
  returns (fun fuel => Count fuel c) (Z.of_nat (length xs))
  /\ returns (fun fuel => Sum fuel c) (fold_left num_add xs num_zero).
Proof.
  intros Hd Hl. destruct (delivers_closes_after Hd) as [s' C].
  split.
  - assert (R0 : GoInt.in_range 0) by (split; vm_compute; discriminate).
    pose proof (Count_loop_returns C R0) as H. simpl in H.
    rewrite wrap_small in H; [exact H|].
    split; [unfold GoInt.min_int; lia | exact Hl].
  - apply (Sum_loop_returns C num_zero).
Qed.

Lemma Count_Sum_any_channel_witness :
  delivers
    (Filter (Map (From [1; 2; 3; 6; 4; 1; 9; 5; 8]) (fun i => GoInt.mul i i))
       Z.even)
    [4; 36; 16; 64]
  /\ Z.of_nat (length [4; 36; 16; 64]) <= GoInt.max_int
  /\ returns
       (fun fuel =>
          Count fuel
            (Filter
               (Map (From [1; 2; 3; 6; 4; 1; 9; 5; 8])
                  (fun i => GoInt.mul i i)) Z.even)) 4
  /\ returns
       (fun fuel =>
          Sum fuel
            (Filter
               (Map (From [1; 2; 3; 6; 4; 1; 9; 5; 8])
                  (fun i => GoInt.mul i i)) Z.even)) 120.
Proof.
  assert (H1 : delivers
                 (Filter
                    (Map (From [1; 2; 3; 6; 4; 1; 9; 5; 8])
                       (fun i => GoInt.mul i i)) Z.even)
                 [4; 36; 16; 64])
    by (exists 40%nat; reflexivity).
  assert (H2 : Z.of_nat (length [4; 36; 16; 64]) <= GoInt.max_int)
    by (vm_compute; discriminate).
  split; [exact H1|]. split; [exact H2|].
  exact (Count_Sum_any_channel H1 H2).
Defined.

(** X2.  When a channel delivers [x], then [xs], and is closed, [First]
    returns [x] and [Last] returns the last value delivered, whatever the
    zero value of the element type is. *)
Theorem First_Last_nonempty (T : Type) {Z0 : Zero T} (c : chan T)
    (x : T) (xs : list T) :
  delivers c (x :: xs) ->
  returns (fun fuel => First fuel c) x
  /\ returns (fun fuel => Last fuel c) (last xs x).
Proof.
  intros Hd. destruct (delivers_closes_after Hd) as [s' [He Hc]].
  split.
  - destruct (emits_first_send He) as (u1 & u2 & E1 & N1 & _).
    destruct (recv_value E1 N1) as [f0 H0].
    exists f0. intros f Hf. unfold First. rewrite (H0 f Hf). reflexivity.
  - pose proof (Last_loop_returns (conj He Hc) zero) as H.
    rewrite last_cons_seed in H. exact H.
Qed.

Lemma First_Last_nonempty_witness :
  delivers (Skip (From [0; 0; 7; 0]) 2) [7; 0]
  /\ returns (fun fuel => First fuel (Skip (From [0; 0; 7; 0]) 2)) 7
  /\ returns (fun fuel => Last fuel (Skip (From [0; 0; 7; 0]) 2)) 0.
Proof.
  assert (H : delivers (Skip (From [0; 0; 7; 0]) 2) [7; 0])
    by (exists 20%nat; reflexivity).
  split; [exact H|].
  exact (First_Last_nonempty H).
Defined.

(** X3.  On a channel that is never closed and whose sender never blocks
    for good, [Count], [Sum], [Max] and [Last] never return, however long
    they run. *)
Theorem aggregators_never_return (T : Type) {Z0 : Zero T} {O : Ordered T}
    {N : Numeric T} (c : chan T) :
  (forall fuel, snd (collect fuel c) = HFuel) ->
  forall fuel,
    Count fuel c = Pending
    /\ Sum fuel c = Pending
    /\ Max fuel c = Pending
    /\ Last fuel c = Pending.
Proof.
  intros H fuel. specialize (H fuel). rewrite collect_drain in H.
  simpl in H.
  unfold Count, Sum, Max, Last.
  rewrite Count_loop_drain, Sum_loop_drain, Max_loop_drain, Last_loop_drain.
  unfold after_collect. simpl snd. rewrite H. repeat split.
Qed.

Lemma aggregators_never_return_witness :
  (forall fuel, snd (collect fuel Fibonaccis) = HFuel)
  /\ (forall fuel,
        Count fuel Fibonaccis = Pending
        /\ Sum fuel Fibonaccis = Pending
        /\ Max fuel Fibonaccis = Pending
        /\ Last fuel Fibonaccis = Pending).
Proof.
  assert (H : forall fuel, snd (collect fuel Fibonaccis) = HFuel)
    by (intros fuel; rewrite Fib_collect; reflexivity).
  split; [exact H|].
  exact (@aggregators_never_return Z _ _ _ Fibonaccis H).
Defined.

(** X4.  When the sender of a channel blocks for good before closing it
    (as on a nil channel, or on the output of [Take] or [Skip] of a nil
    channel), [Count], [Sum], [Max] and [Last] block for ever: they do not
    return what they have accumulated. *)
Theorem aggregators_block_with_sender (T : Type) {Z0 : Zero T}
    {O : Ordered T} {N : Numeric T} (c : chan T) (fuel : nat)
    (xs : list T) :
  collect fuel c = (xs, HParked) ->
  forall fuel', (fuel <= fuel')%nat ->
    Count fuel' c = Deadlock
    /\ Sum fuel' c = Deadlock
    /\ Max fuel' c = Deadlock
    /\ Last fuel' c = Deadlock.
Proof.
  intros H fuel' Hle. rewrite collect_drain in H.
  destruct (drain (sender c) fuel (start (sender c))) as [[ys s] h] eqn:E.
  simpl in H. inversion H; subst.
  assert (E' : drain (sender c) fuel' (start (sender c)) = (xs, s, HParked))
    by (eapply drain_mono; [exact E | discriminate | exact Hle]).
  unfold Count, Sum, Max, Last.
  rewrite Count_loop_drain, Sum_loop_drain, Max_loop_drain, Last_loop_drain.
  unfold after_collect. simpl snd. rewrite E'. repeat split.
Qed.

Lemma aggregators_block_with_sender_witness :
  collect 1 (Take (Map (@None (goroutine Z)) (fun i => i)) 3) = ([], HParked)
  /\ Count 5 (Take (Map (@None (goroutine Z)) (fun i => i)) 3) = Deadlock
  /\ Sum 5 (Take (Map (@None (goroutine Z)) (fun i => i)) 3) = Deadlock
  /\ Max 5 (Take (Map (@None (goroutine Z)) (fun i => i)) 3) = Deadlock
  /\ Last 5 (Take (Map (@None (goroutine Z)) (fun i => i)) 3) = Deadlock.
Proof.
  assert (H : collect 1 (Take (Map (@None (goroutine Z)) (fun i => i)) 3)
              = ([], HParked)) by reflexivity.
  split; [exact H|].
  assert (L : (1 <= 5)%nat) by (repeat constructor).
  exact (@aggregators_block_with_sender Z _ _ _
           (Take (Map (@None (goroutine Z)) (fun i => i)) 3) 1 [] H 5 L).
Defined.

(** ** Map and Filter on any input *)

Section MapConverse.
Context {T1 T2 : Type} (g : goroutine T1) (mapper : T1 -> T2).

Local Abbreviation M := (Map_go g mapper).

(** A run of [Map] that finds its output closed comes from a run of the
    input to its own close. *)
Lemma Map_drain_closed (fuel : nat) :
  (forall u ys s',
     drain M fuel (MapRange g u) = (ys, s', HClosed) ->
     exists xs u', closes_after g u xs u' /\ ys = map mapper xs)
  /\ (forall v u ys s',
        drain M fuel (MapSend g v u) = (ys, s', HClosed) ->
        exists xs u', closes_after g u xs u' /\ ys = v :: map mapper xs).
Proof.
  induction fuel as [|fuel [IH1 IH2]].
  - split; intros; discriminate.
  - split.
    + intros u ys s' D. simpl in D.
      destruct (next g u) as [x k|k| |] eqn:E; simpl in D.
      * destruct (IH2 _ _ _ _ D) as (xs & u' & [He Hc] & ->).
        exists (x :: xs), u'. split; [|reflexivity].
        split; [eapply emits_send; eauto | exact Hc].
      * destruct (IH1 _ _ _ D) as (xs & u' & [He Hc] & ->).
        exists xs, u'. split; [|reflexivity].
        split; [eapply emits_work; eauto | exact Hc].
      * destruct fuel as [|[|fuel]]; simpl in D; try discriminate.
        inversion D; subst. exists [], u. split; [|reflexivity].
        split; [apply emits_refl | exact E].
      * discriminate.
    + intros v u ys s' D. simpl in D.
      destruct (drain M fuel (MapRange g u)) as [[ys0 s0] h0] eqn:E0.
      inversion D; subst.
      destruct (IH1 _ _ _ E0) as (xs & u' & C & ->).
      exists xs, u'. split; [exact C | reflexivity].
Qed.

End MapConverse.

Section FilterConverse.
Context {T : Type} (g : goroutine T) (predicate : T -> bool).

Local Abbreviation F := (Filter_go g predicate).

Lemma Filter_drain_closed (fuel : nat) :
  (forall u ys s',
     drain F fuel (FilterRange g u) = (ys, s', HClosed) ->
     exists xs u', closes_after g u xs u' /\ ys = filter predicate xs)
  /\ (forall v u ys s',
        drain F fuel (FilterSend g v u) = (ys, s', HClosed) ->
        exists xs u',
          closes_after g u xs u' /\ ys = v :: filter predicate xs).
Proof.
  induction fuel as [|fuel [IH1 IH2]].
  - split; intros; discriminate.
  - split.
    + intros u ys s' D. simpl in D.
      destruct (next g u) as [x k|k| |] eqn:E; simpl in D.
      * destruct (predicate x) eqn:Ep; simpl in D.
        -- destruct (IH2 _ _ _ _ D) as (xs & u' & [He Hc] & ->).
           exists (x :: xs), u'. split.
           ++ split; [eapply emits_send; eauto | exact Hc].
           ++ simpl. rewrite Ep. reflexivity.
        -- destruct (IH1 _ _ _ D) as (xs & u' & [He Hc] & ->).
           exists (x :: xs), u'. split.
           ++ split; [eapply emits_send; eauto | exact Hc].
           ++ simpl. rewrite Ep. reflexivity.
      * destruct (IH1 _ _ _ D) as (xs & u' & [He Hc] & ->).
        exists xs, u'. split; [|reflexivity].
        split; [eapply emits_work; eauto | exact Hc].
      * destruct fuel as [|[|fuel]]; simpl in D; try discriminate.
        inversion D; subst. exists [], u. split; [|reflexivity].
        split; [apply emits_refl | exact E].
      * discriminate.
    + intros v u ys s' D. simpl in D.
      destruct (drain F fuel (FilterRange g u)) as [[ys0 s0] h0] eqn:E0.
      inversion D; subst.
      destruct (IH1 _ _ _ E0) as (xs & u' & C & ->).
      exists xs, u'. split; [exact C | reflexivity].
Qed.

End FilterConverse.

(** X5.  [Map] on any input, also the output of another stage: the output
    delivers [ys] and is closed exactly when the input delivers some [xs]
    and is closed, and then [ys] is [mapper] applied to each value of [xs]
    in order.  So the output is never closed when the input never is, and
    a nil input (whose [Map] is nil) delivers nothing either way. *)
Theorem Map_any_channel (T1 T2 : Type) (c : chan T1) (mapper : T1 -> T2)
    (ys : list T2) :
  delivers (Map c mapper) ys
  <-> exists xs, delivers c xs /\ ys = map mapper xs.
Proof.
  destruct c as [g|]; simpl.
  - split.
    + intros [fuel D]. unfold collect in D. simpl in D.
      destruct (drain (Map_go g mapper) fuel (MapRange g (start g)))
        as [[ys0 s0] h0] eqn:E.
      inversion D; subst.
      destruct (proj1 (Map_drain_closed g mapper fuel) _ _ _ E)
        as (xs & u' & C & ->).
      exists xs. split; [|reflexivity].
      apply (closes_after_delivers C).
    + intros (xs & Hd & ->).
      destruct (delivers_closes_after Hd) as [s' C].
      eapply closes_after_delivers with (g := Map_go g mapper).
      apply Map_closes_after. exact C.
  - split.
    + intros H. destruct (nil_never_delivers H).
    + intros (xs & H & _). destruct (nil_never_delivers H).
Qed.

(** X6.  [Filter] on any input: the output delivers [ys] and is closed
    exactly when the input delivers some [xs] and is closed, and then [ys]
    holds the values of [xs] that satisfy [predicate], in the order of
    [xs]. *)
Theorem Filter_any_channel (T : Type) (c : chan T) (predicate : T -> bool)
    (ys : list T) :
  delivers (Filter c predicate) ys
  <-> exists xs, delivers c xs /\ ys = filter predicate xs.
Proof.
  destruct c as [g|]; simpl.
  - split.
    + intros [fuel D]. unfold collect in D. simpl in D.
      destruct (drain (Filter_go g predicate) fuel
                  (FilterRange g (start g))) as [[ys0 s0] h0] eqn:E.
      inversion D; subst.
      destruct (proj1 (Filter_drain_closed g predicate fuel) _ _ _ E)
        as (xs & u' & C & ->).
      exists xs. split; [|reflexivity].
      apply (closes_after_delivers C).
    + intros (xs & Hd & ->).
      destruct (delivers_closes_after Hd) as [s' C].
      eapply closes_after_delivers with (g := Filter_go g predicate).
      apply Filter_closes_after. exact C.
  - split.
    + intros H. destruct (nil_never_delivers H).
    + intros (xs & H & _). destruct (nil_never_delivers H).
Qed.

(** ** Stages on inputs that need not be closed *)

Section PrefixRuns.
Context {T : Type} (g : goroutine T).

Lemma drain_length (fuel : nat) : forall s,
  (length (fst (fst (drain g fuel s))) <= fuel)%nat.
Proof.
  induction fuel as [|fuel IH]; intros s; simpl.
  - lia.
  - destruct (next g s) as [v k|k| |]; simpl; try lia.
    + specialize (IH k). destruct (drain g fuel k) as [[xs s'] h].
      simpl in *. lia.
    + specialize (IH k). lia.
Qed.

Lemma Map_emits {T2 : Type} (mapper : T -> T2) u xs u' :
  emits g u xs u' ->
  emits (Map_go g mapper) (MapRange g u) (map mapper xs) (MapRange g u').
Proof.
  induction 1 as [s | s k xs s' Hn He IH | s v k xs s' Hn He IH]; simpl.
  - apply emits_refl.
  - eapply emits_work; [simpl; rewrite Hn; reflexivity | exact IH].
  - eapply emits_work; [simpl; rewrite Hn; reflexivity|].
    eapply emits_send; [reflexivity | exact IH].
Qed.

Lemma Filter_emits (predicate : T -> bool) u xs u' :
  emits g u xs u' ->
  emits (Filter_go g predicate) (FilterRange g u) (filter predicate xs)
    (FilterRange g u').
Proof.
  induction 1 as [s | s k xs s' Hn He IH | s v k xs s' Hn He IH]; simpl.
  - apply emits_refl.
  - eapply emits_work; [simpl; rewrite Hn; reflexivity | exact IH].
  - destruct (predicate v) eqn:Ep.
    + eapply emits_work; [simpl; rewrite Hn, Ep; reflexivity|].
      eapply emits_send; [reflexivity | exact IH].
    + eapply emits_work; [simpl; rewrite Hn, Ep; reflexivity | exact IH].
Qed.

Lemma Skip_emits (count : Z) u xs u' :
  emits g u xs u' ->
  forall skipped,
    0 <= skipped -> skipped + Z.of_nat (length xs) <= GoInt.max_int ->
    emits (Skip_go g count) (SkipRange g skipped u)
      (skipn (Z.to_nat (count - skipped)) xs)
      (SkipRange g (skipped + Z.of_nat (length xs)) u').
Proof.
  induction 1 as [s | s k xs s' Hn He IH | s v k xs s' Hn He IH];
    intros skipped H0 Hmax.
  - simpl length. rewrite Z.add_0_r, skipn_nil. apply emits_refl.
  - eapply emits_work; [simpl; rewrite Hn; reflexivity|].
    apply IH; assumption.
  - assert (Hlen : Z.of_nat (length (v :: xs)) = 1 + Z.of_nat (length xs))
      by (simpl length; lia).
    rewrite Hlen in *.
    assert (Hi : GoInt.add skipped 1 = skipped + 1)
      by (apply incr_small; lia).
    assert (E := IH (skipped + 1) ltac:(lia) ltac:(lia)).
    replace (skipped + (1 + Z.of_nat (length xs)))
      with (skipped + 1 + Z.of_nat (length xs)) by lia.
    destruct (Z_lt_le_dec count (skipped + 1)) as [Hgt|Hle].
    + replace (Z.to_nat (count - skipped)) with O by lia.
      replace (Z.to_nat (count - (skipped + 1))) with O in E by lia.
      simpl skipn in *.
      eapply emits_work.
      { simpl. rewrite Hn, Hi.
        replace (skipped + 1 >? count) with true by (symmetry; lia).
        reflexivity. }
      eapply emits_send; [reflexivity | exact E].
    + replace (Z.to_nat (count - skipped))
        with (S (Z.to_nat (count - (skipped + 1)))) by lia.
      simpl skipn.
      eapply emits_work; [|exact E].
      simpl. rewrite Hn, Hi.
      replace (skipped + 1 >? count) with false by (symmetry; lia).
      reflexivity.
Qed.

(** After [count] values were skipped, the next value of the input is the
    next value of the output. *)
Lemma Skip_emits_then_send (count : Z) u xs u1 y u2 :
  emits g u xs u1 -> next g u1 = Sending y u2 ->
  0 <= count <= Z.of_nat (length xs) ->
  Z.of_nat (length xs) < GoInt.max_int ->
  exists k1 k2,
    emits (Skip_go g count) (SkipRange g 0 u) (skipn (Z.to_nat count) xs) k1
    /\ next (Skip_go g count) k1 = Sending y k2.
Proof.
  intros He Hy Hc Hmax.
  pose proof (Skip_emits count He (skipped := 0)) as E.
  rewrite Z.sub_0_r, Z.add_0_l in E.
  assert (Hi : GoInt.add (Z.of_nat (length xs)) 1
               = Z.of_nat (length xs) + 1) by (apply incr_small; lia).
  exists (SkipSend g y (Z.of_nat (length xs) + 1) u2),
         (SkipRange g (Z.of_nat (length xs) + 1) u2).
  split; [|reflexivity].
  rewrite <- (app_nil_r (skipn (Z.to_nat count) xs)).
  eapply emits_app; [apply E; lia|].
  apply emits_step_work. simpl. rewrite Hy, Hi.
  replace (Z.of_nat (length xs) + 1 >? count) with true by (symmetry; lia).
  reflexivity.
Qed.

End PrefixRuns.

Lemma collect_length {T} (c : chan T) (fuel : nat) :
  (length (fst (collect fuel c)) <= fuel)%nat.
Proof. rewrite collect_drain. apply drain_length. Qed.

(** X7.  [Map], [Filter] and [Skip] are lazy: whatever values the input
    has delivered at some point, closed or not, the output delivers the
    mapped values, the values satisfying the predicate, and the values
    after the first [n], at some point of its own.  They do not wait for
    the input to be closed, so they work on streams that never end. *)
Theorem stages_are_lazy (T T2 : Type) (c : chan T) (fuel : nat)
    (mapper : T -> T2) (predicate : T -> bool) (n : Z) :
  Z.of_nat fuel <= GoInt.max_int ->
  (exists fuel',
     fst (collect fuel' (Map c mapper)) = map mapper (fst (collect fuel c)))
  /\ (exists fuel',
        fst (collect fuel' (Filter c predicate))
        = filter predicate (fst (collect fuel c)))
  /\ (exists fuel',
        fst (collect fuel' (Skip c n))
        = skipn (Z.to_nat n) (fst (collect fuel c))).
Proof.
  intros Hf.
  destruct (collect_emits c fuel) as [s' He].
  pose proof (collect_length c fuel) as Hl.
  split; [|split].
  - destruct c as [g|]; simpl.
    + apply (emits_collect (g := Map_go g mapper) (Map_emits mapper He)).
    + exists O. destruct fuel; reflexivity.
  - destruct c as [g|]; simpl.
    + apply (emits_collect (g := Filter_go g predicate)
               (Filter_emits predicate He)).
    + exists O. destruct fuel; reflexivity.
  - pose proof (Skip_emits n He (skipped := 0)) as E.
    rewrite Z.sub_0_r, Z.add_0_l in E.
    apply (emits_collect (g := Skip_go (sender c) n) (E ltac:(lia) ltac:(lia))).
Qed.

Lemma stages_are_lazy_witness :
  Z.of_nat 6 <= GoInt.max_int
  /\ (exists fuel',
        fst (collect fuel' (Map Fibonaccis (fun i => GoInt.mul i i)))
        = [1; 1; 4; 9; 25; 64])
  /\ (exists fuel',
        fst (collect fuel' (Filter Fibonaccis Z.even)) = [2; 8])
  /\ (exists fuel',
        fst (collect fuel' (Skip Fibonaccis 4)) = [5; 8]).
Proof.
  assert (H : Z.of_nat 6 <= GoInt.max_int) by (vm_compute; discriminate).
  split; [exact H|].
  exact (@stages_are_lazy Z Z Fibonaccis 6 (fun i => GoInt.mul i i)
           Z.even 4 H).
Defined.

(** ** Take and Skip on any input *)

(** [Take] on an input that closes after [xs]. *)
Lemma Take_closes_any {T} (g : goroutine T) (n : Z) xs s' :
  closes_after g (start g) xs s' ->
  Z.of_nat (length xs) <= GoInt.max_int ->
  0 <= n <= GoInt.max_int ->
  exists k,
    closes_after (Take_go g n) (TakeRange g 0 (start g))
      (firstn (Z.to_nat n) xs) k.
Proof.
  intros C Hl Hn.
  destruct (Z_lt_le_dec n (Z.of_nat (length xs))) as [Hlt|Hge].
  - pose proof (firstn_skipn (Z.to_nat n) xs) as Hsplit.
    destruct (skipn (Z.to_nat n) xs) as [|y rest] eqn:Es.
    { exfalso. apply (f_equal (@length T)) in Es.
      rewrite length_skipn in Es. simpl in Es. lia. }
    destruct C as [He Hc]. rewrite <- Hsplit in He.
    destruct (@emits_split_send T g y rest s' _ _ He)
      as (u1 & u2 & E1 & N1 & _).
    eexists.
    eapply Take_input_longer with (u1 := u1) (y := y); eauto; try lia.
    rewrite length_firstn. lia.
  - rewrite firstn_all2 by lia. eexists.
    apply Take_input_closes; try lia. exact C.
Qed.

(** X8.  [Take] on any input, also the output of another stage: when the
    input delivers [xs] (of a length that is an [int]) and is closed, then
    for [0 <= n] the output delivers the first [n] values of [xs], or all
    of [xs] when it holds fewer, and is closed. *)
Theorem Take_any_channel (T : Type) (c : chan T) (xs : list T) (n : Z) :
  delivers c xs ->
  Z.of_nat (length xs) <= GoInt.max_int ->
  0 <= n <= GoInt.max_int ->
  delivers (Take c n) (firstn (Z.to_nat n) xs).
Proof.
  intros Hd Hl Hn. destruct (delivers_closes_after Hd) as [s' C].
  destruct (Take_closes_any C Hl Hn) as [k Ck].
  apply (closes_after_delivers (g := Take_go (sender c) n) Ck).
Qed.

Lemma Take_any_channel_witness :
  delivers (Filter (From [1; 2; 3; 6; 4; 1; 9; 5; 8]) Z.even) [2; 6; 4; 8]
  /\ Z.of_nat (length [2; 6; 4; 8]) <= GoInt.max_int
  /\ 0 <= 3 <= GoInt.max_int
  /\ delivers (Take (Filter (From [1; 2; 3; 6; 4; 1; 9; 5; 8]) Z.even) 3)
       [2; 6; 4].
Proof.
  assert (H1 : delivers (Filter (From [1; 2; 3; 6; 4; 1; 9; 5; 8]) Z.even)
                 [2; 6; 4; 8]) by (exists 30%nat; reflexivity).
  assert (H2 : Z.of_nat (length [2; 6; 4; 8]) <= GoInt.max_int)
    by (vm_compute; discriminate).
  assert (H3 : 0 <= 3 <= GoInt.max_int)
    by (split; vm_compute; discriminate).
  split; [exact H1|]. split; [exact H2|]. split; [exact H3|].
  exact (Take_any_channel H1 H2 H3).
Defined.

(** X9.  [Take] ends a stream that does not end by itself: when the input
    can deliver the values [xs] and one more, whether or not it is ever
    closed, [Take] with the count [length(xs)] delivers exactly [xs] and
    closes its output. *)
Theorem Take_of_longer_input (T : Type) (c : chan T) (fuel : nat)
    (xs : list T) (y : T) (rest : list T) :
  fst (collect fuel c) = xs ++ y :: rest ->
  Z.of_nat (length xs) < GoInt.max_int ->
  delivers (Take c (Z.of_nat (length xs))) xs.
Proof.
  intros Hc Hl. destruct (collect_emits c fuel) as [s' He].
  rewrite Hc in He.
  destruct (@emits_split_send T (sender c) y rest s' _ _ He)
    as (u1 & u2 & E1 & N1 & _).
  eapply closes_after_delivers
    with (g := Take_go (sender c) (Z.of_nat (length xs))).
  simpl start.
  eapply Take_input_longer with (u1 := u1) (y := y); eauto; lia.
Qed.

Lemma Take_of_longer_input_witness :
  fst (collect 6 (Map Fibonaccis (fun i => GoInt.mul i i)))
    = [1; 1] ++ 4 :: []
  /\ Z.of_nat (length [1; 1]) < GoInt.max_int
  /\ delivers (Take (Map Fibonaccis (fun i => GoInt.mul i i)) 2) [1; 1].
Proof.
  assert (H1 : fst (collect 6 (Map Fibonaccis (fun i => GoInt.mul i i)))
               = [1; 1] ++ 4 :: []) by reflexivity.
  assert (H2 : Z.of_nat (length [1; 1]) < GoInt.max_int) by reflexivity.
  split; [exact H1|]. split; [exact H2|].
  exact (@Take_of_longer_input Z (Map Fibonaccis (fun i => GoInt.mul i i))
           6 [1; 1] 4 [] H1 H2).
Defined.

(** X10.  Whatever the input does and however long the stage has run,
    for [0 <= count < max_int]: the values [Take] has sent are the first
    values it received, in the order received, and never more than [count]
    of them; and it has received at most [count + 1] values, that number
    being its variable [taken]. *)
Theorem Take_never_exceeds (T : Type) (c : chan T) (count : Z)
    (fuel : nat) :
  0 <= count < GoInt.max_int ->
  let r := drain (Take_go (sender c) count) fuel
             (TakeRange (sender c) 0 (start (sender c))) in
  Z.of_nat (length (fst (fst r))) <= count
  /\ 0 <= Take_taken (snd (fst r)) <= count + 1
  /\ exists received rest,
       emits (sender c) (start (sender c)) received
         (Take_upstream (snd (fst r)))
       /\ Take_taken (snd (fst r)) = Z.of_nat (length received)
       /\ received = fst (fst r) ++ rest.
Proof.
  intros Hc r.
  destruct (drain (Take_go (sender c) count) fuel
              (TakeRange (sender c) 0 (start (sender c))))
    as [[ys s] h] eqn:E.
  subst r. simpl fst. simpl snd.
  pose proof (drain_emits _ _ _ E) as He.
  destruct (Take_run_bounds Hc He) as (xs & E1 & Ht & [rest Hr] & Hy & Hx).
  split; [exact Hy|]. split; [lia|].
  exists xs, rest. auto.
Qed.

Lemma Take_never_exceeds_witness :
  0 <= 2 < GoInt.max_int
  /\ Z.of_nat
       (length
          (fst (fst (drain (Take_go Fib_go 2) 50 (TakeRange Fib_go 0 (start Fib_go))))))
     <= 2
  /\ 0 <= Take_taken
            (snd (fst (drain (Take_go Fib_go 2) 50
                         (TakeRange Fib_go 0 (start Fib_go))))) <= 2 + 1.
Proof.
  assert (H : 0 <= 2 < GoInt.max_int)
    by (split; [vm_compute; discriminate | reflexivity]).
  split; [exact H|].
  pose proof (@Take_never_exceeds Z Fibonaccis 2 50 H) as (A & B & _).
  split; [exact A | exact B].
Defined.

(** X11.  [Skip] on any input, also the output of another stage: when the
    input delivers [xs] (of a length that is an [int]) and is closed, then
    for [0 <= n] the output delivers [xs] without its first [n] values
    (nothing when [xs] holds fewer) and is closed. *)
Theorem Skip_any_channel (T : Type) (c : chan T) (xs : list T) (n : Z) :
  delivers c xs ->
  Z.of_nat (length xs) <= GoInt.max_int ->
  0 <= n ->
  delivers (Skip c n) (skipn (Z.to_nat n) xs).
Proof.
  intros Hd Hl Hn. destruct (delivers_closes_after Hd) as [s' C].
  pose proof (@Skip_closes_after T (sender c) n _ _ _ C 0) as H.
  rewrite Z.sub_0_r, Z.add_0_l in H.
  eapply closes_after_delivers with (g := Skip_go (sender c) n).
  apply H; lia.
Qed.

Lemma Skip_any_channel_witness :
  delivers (Map (From [1; 2; 3; 4]) (fun i => GoInt.mul i i)) [1; 4; 9; 16]
  /\ Z.of_nat (length [1; 4; 9; 16]) <= GoInt.max_int
  /\ 0 <= 3
  /\ delivers (Skip (Map (From [1; 2; 3; 4]) (fun i => GoInt.mul i i)) 3)
       [16].
Proof.
  assert (H1 : delivers (Map (From [1; 2; 3; 4]) (fun i => GoInt.mul i i))
                 [1; 4; 9; 16]) by (exists 30%nat; reflexivity).
  assert (H2 : Z.of_nat (length [1; 4; 9; 16]) <= GoInt.max_int)
    by (vm_compute; discriminate).
  assert (H3 : 0 <= 3) by (vm_compute; discriminate).
  split; [exact H1|]. split; [exact H2|]. split; [exact H3|].
  exact (Skip_any_channel H1 H2 H3).
Defined.



(** ** Zip on any two inputs *)

Section ZipAny.
Context {T1 T2 T3 : Type} (gx : goroutine T1) (gy : goroutine T2)
        (mapper : T1 -> T2 -> T3).

Local Abbreviation ZZ := (Zip_go gx gy mapper).

(** [xs] was found closed: one receive on [ys], then the output is
    closed. *)
Lemma Zip_x_closed ux uy ys uy' :
  closes_after gy uy ys uy' ->
  exists k, closes_after ZZ (ZipRecvY gx gy None ux uy) [] k.
Proof.
  intros [He Hc].
  induction He as [s | s k ys s' Hn He IH | s v k ys s' Hn He IH].
  - exists (ZipExit gx gy ux s). split; [|reflexivity].
    eapply emits_work; [simpl; rewrite Hc; reflexivity|].
    apply emits_step_work. reflexivity.
  - destruct (IH Hc) as [k' [E C]]. exists k'. split; [|exact C].
    eapply emits_work; [simpl; rewrite Hn; reflexivity | exact E].
  - exists (ZipExit gx gy ux k). split; [|reflexivity].
    eapply emits_work; [simpl; rewrite Hn; reflexivity|].
    apply emits_step_work. reflexivity.
Qed.

(** [x] was received from [xs]: the receive on [ys] decides. *)
Lemma Zip_x_received x xs' ux uy ys uy' :
  closes_after gy uy ys uy' ->
  (forall uy1 rest,
     closes_after gy uy1 rest uy' ->
     exists k, closes_after ZZ (ZipRecvX gx gy ux uy1)
                 (zip_with mapper xs' rest) k) ->
  exists k, closes_after ZZ (ZipRecvY gx gy (Some x) ux uy)
              (zip_with mapper (x :: xs') ys) k.
Proof.
  intros [He Hc] Hx.
  induction He as [s | s k ys s' Hn He IH | s v k ys s' Hn He IH].
  - exists (ZipExit gx gy ux s). split; [|reflexivity]. simpl.
    eapply emits_work; [simpl; rewrite Hc; reflexivity|].
    apply emits_step_work. reflexivity.
  - destruct (IH Hc Hx) as [k' [E C]]. exists k'. split; [|exact C].
    eapply emits_work; [simpl; rewrite Hn; reflexivity | exact E].
  - destruct (Hx k ys (conj He Hc)) as [k' [E C]].
    exists k'. split; [|exact C]. simpl.
    eapply emits_work; [simpl; rewrite Hn; reflexivity|].
    eapply emits_send; [reflexivity | exact E].
Qed.

Lemma Zip_closes_any ux xs ux' :
  closes_after gx ux xs ux' ->
  forall uy ys uy',
    closes_after gy uy ys uy' ->
    exists k, closes_after ZZ (ZipRecvX gx gy ux uy)
                (zip_with mapper xs ys) k.
Proof.
  intros [He Hc].
  induction He as [s | s k xs s' Hn He IH | s v k xs s' Hn He IH];
    intros uy ys uy' Cy.
  - destruct (Zip_x_closed s Cy) as [k' [E C]].
    exists k'. split; [|exact C]. simpl.
    eapply emits_work; [simpl; rewrite Hc; reflexivity | exact E].
  - destruct (IH Hc uy ys uy' Cy) as [k' [E C]].
    exists k'. split; [|exact C].
    eapply emits_work; [simpl; rewrite Hn; reflexivity | exact E].
  - destruct (@Zip_x_received v xs k uy ys uy' Cy) as [k' [E C]].
    { intros uy1 rest C1. apply (IH Hc uy1 rest uy' C1). }
    exists k'. split; [|exact C].
    eapply emits_work; [simpl; rewrite Hn; reflexivity | exact E].
Qed.

End ZipAny.

(** X13.  [Zip] on two channels that are independent of each other (each
    with a sender of its own and no channel read by both, as two calls of
    [From], or stages on two such calls; not one channel passed twice):
    when [xs] delivers [A] and is closed and [ys] delivers [B] and is
    closed, the output delivers [mapper] of the values of [A] and [B] at
    the same index, as many as the shorter of the two holds, and is
    closed. *)
Theorem Zip_any_channels (T1 T2 T3 : Type) (cx : chan T1) (cy : chan T2)
    (mapper : T1 -> T2 -> T3) (A : list T1) (B : list T2) :
  delivers cx A ->
  delivers cy B ->
  delivers (Zip cx cy mapper) (zip_with mapper A B).
Proof.
  intros Hx Hy.
  destruct cx as [gx|]; [|destruct (nil_never_delivers Hx)].
  destruct cy as [gy|]; [|destruct (nil_never_delivers Hy)].
  destruct (delivers_closes_after Hx) as [sx Cx].
  destruct (delivers_closes_after Hy) as [sy Cy].
  destruct (Zip_closes_any mapper Cx Cy) as [k C].
  apply (closes_after_delivers (g := Zip_go gx gy mapper) C).
Qed.

Lemma Zip_any_channels_witness :
  delivers (From [1; 2; 3; 6; 4; 1; 9; 5; 8]) [1; 2; 3; 6; 4; 1; 9; 5; 8]
  /\ delivers (Skip (From [1; 2; 3; 6; 4; 1; 9; 5; 8]) 1)
       [2; 3; 6; 4; 1; 9; 5; 8]
  /\ delivers
       (Zip (From [1; 2; 3; 6; 4; 1; 9; 5; 8])
          (Skip (From [1; 2; 3; 6; 4; 1; 9; 5; 8]) 1) GoInt.mul)
       [2; 6; 18; 24; 4; 9; 45; 40].
Proof.
  assert (H1 : delivers (From [1; 2; 3; 6; 4; 1; 9; 5; 8])
                 [1; 2; 3; 6; 4; 1; 9; 5; 8])
    by (exists 20%nat; reflexivity).
  assert (H2 : delivers (Skip (From [1; 2; 3; 6; 4; 1; 9; 5; 8]) 1)
                 [2; 3; 6; 4; 1; 9; 5; 8])
    by (exists 40%nat; reflexivity).
  split; [exact H1|]. split; [exact H2|].
  exact (Zip_any_channels GoInt.mul H1 H2).
Defined.

(** ** Pipelines on Fibonaccis *)

(** [Fibonaccis] hands over its first [k] values and is then blocked in
    the send of the next. *)
Lemma Fib_emits_then_send (k : nat) :
  exists u1 u2,
    emits Fib_go (start Fib_go) (map Fib_sent (seq 0 k)) u1
    /\ next Fib_go u1 = Sending (Fib_sent k) u2.
Proof.
  destruct (collect_emits Fibonaccis (S k)) as [s' He].
  rewrite Fib_collect in He. cbn [fst] in He.
  rewrite fib_from_nth, seq_S, map_app in He.
  change (map (fun k0 => Fib_nth k0 1 1) [(0 + k)%nat])
    with [Fib_sent k] in He.
  destruct (@emits_split_send Z Fib_go (Fib_sent k) [] s' _ _ He)
    as (u1 & u2 & E1 & N1 & _).
  exists u1, u2. split; [exact E1 | exact N1].
Qed.

(** X14.  Pipelines on the stream that never ends, for all counts [m] and
    [n] with [m + n < max_int]: [Take(Fibonaccis(), n)] delivers the first
    [n] values of [Fibonaccis] and is closed;
    [First(Skip(Fibonaccis(), m))] returns the value of index [m] (from 0);
    and [Take(Skip(Fibonaccis(), m), n)] delivers the [n] values from index
    [m] on and is closed. *)
Theorem Fibonaccis_pipelines (m n : nat) :
  Z.of_nat (m + n) < GoInt.max_int ->
  delivers (Take Fibonaccis (Z.of_nat n)) (map Fib_sent (seq 0 n))
  /\ returns (fun fuel => First fuel (Skip Fibonaccis (Z.of_nat m)))
       (Fib_sent m)
  /\ delivers (Take (Skip Fibonaccis (Z.of_nat m)) (Z.of_nat n))
       (map Fib_sent (seq m n)).
Proof.
  intros Hb. split; [|split].
  - destruct (Fib_emits_then_send n) as (u1 & u2 & E1 & N1).
    eapply closes_after_delivers with (g := Take_go Fib_go (Z.of_nat n)).
    simpl start.
    eapply Take_input_longer with (u1 := u1); eauto; try lia.
    rewrite length_map, length_seq. lia.
  - destruct (Fib_emits_then_send m) as (u1 & u2 & E1 & N1).
    assert (Hl : length (map Fib_sent (seq 0 m)) = m)
      by (rewrite length_map, length_seq; reflexivity).
    destruct (@Skip_emits_then_send Z Fib_go (Z.of_nat m) _ _ _ _ _ E1 N1)
      as (k1 & k2 & E & N); try (rewrite Hl; lia).
    rewrite Nat2Z.id, skipn_all2 in E by (rewrite Hl; lia).
    destruct (recv_value E N) as [f0 H0].
    exists f0. intros f Hf. pose proof (H0 f Hf) as R.
    unfold First. simpl in *. rewrite R. reflexivity.
  - destruct (Fib_emits_then_send (m + n)) as (u1 & u2 & E1 & N1).
    assert (Hl : length (map Fib_sent (seq 0 (m + n))) = (m + n)%nat)
      by (rewrite length_map, length_seq; reflexivity).
    destruct (@Skip_emits_then_send Z Fib_go (Z.of_nat m) _ _ _ _ _ E1 N1)
      as (k1 & k2 & E & N); try (rewrite Hl; lia).
    rewrite Nat2Z.id, skipn_map, skipn_seq in E.
    replace (m + n - m)%nat with n in E by lia. simpl plus in E.
    eapply closes_after_delivers
      with (g := Take_go (Skip_go Fib_go (Z.of_nat m)) (Z.of_nat n)).
    simpl start.
    eapply Take_input_longer with (u1 := k1); eauto; try lia.
    rewrite length_map, length_seq. lia.
Qed.

Lemma Fibonaccis_pipelines_witness :
  Z.of_nat (4 + 10) < GoInt.max_int
  /\ delivers (Take Fibonaccis 10) [1; 1; 2; 3; 5; 8; 13; 21; 34; 55]
  /\ returns (fun fuel => First fuel (Skip Fibonaccis 4)) 5
  /\ delivers (Take (Skip Fibonaccis 4) 10)
       [5; 8; 13; 21; 34; 55; 89; 144; 233; 377].
Proof.
  assert (H : Z.of_nat (4 + 10) < GoInt.max_int) by reflexivity.
  split; [exact H|].
  exact (@Fibonaccis_pipelines 4 10 H).
Defined.

(** ** concatInts *)

Lemma string_append_assoc (a b c : String.string) :
  String.append (String.append a b) c = String.append a (String.append b c).
Proof.
  induction a as [|ch a IH]; simpl.
  - reflexivity.
  - rewrite IH. reflexivity.
Qed.

Section ConcatIntsFacts.
Context (g : goroutine Z) (separator : String.string).

Local Abbreviation written b elem :=
  (String.append (String.append b separator) (Sprintf_d elem)).

Lemma concatInts_loop_later s xs s' :
  closes_after g s xs s' ->
  forall builder,
    returns (fun fuel => concatInts_loop g separator fuel s builder false)
      (fold_left (fun b elem => written b elem) xs builder).
Proof.
  intros [He Hc].
  induction He as [s | s k xs s' Hn He IH | s v k xs s' Hn He IH];
    intros builder.
  - exists 1%nat. intros [|f] Hf; [lia|]. simpl. rewrite Hc. reflexivity.
  - destruct (IH Hc builder) as [f0 H0]. exists (S f0).
    intros [|f] Hf; [lia|]. simpl. rewrite Hn. apply H0. lia.
  - destruct (IH Hc (written builder v)) as [f0 H0]. exists (S f0).
    intros [|f] Hf; [lia|]. simpl concatInts_loop. rewrite Hn.
    rewrite H0 by lia. reflexivity.
Qed.

Lemma concatInts_loop_first s xs s' :
  closes_after g s xs s' ->
  forall builder,
    returns (fun fuel => concatInts_loop g separator fuel s builder true)
      match xs with
      | [] => builder
      | elem :: rest =>
          fold_left (fun b elem => written b elem) rest
            (String.append builder (Sprintf_d elem))
      end.
Proof.
  intros [He Hc].
  induction He as [s | s k xs s' Hn He IH | s v k xs s' Hn He IH];
    intros builder.
  - exists 1%nat. intros [|f] Hf; [lia|]. simpl. rewrite Hc. reflexivity.
  - destruct (IH Hc builder) as [f0 H0]. exists (S f0).
    intros [|f] Hf; [lia|]. simpl. rewrite Hn. apply H0. lia.
  - destruct (@concatInts_loop_later k xs s' (conj He Hc)
                (String.append builder (Sprintf_d v))) as [f0 H0].
    exists (S f0).
    intros [|f] Hf; [lia|]. simpl concatInts_loop. rewrite Hn.
    rewrite H0 by lia. reflexivity.
Qed.

(** What the builder holds at the end is the joined list. *)
Lemma written_is_concat (rest : list Z) : forall elem builder,
  fold_left (fun b elem => written b elem) rest
    (String.append builder (Sprintf_d elem))
  = String.append builder
      (String.concat separator (map Sprintf_d (elem :: rest))).
Proof.
  induction rest as [|y rest IH]; intros elem builder.
  - reflexivity.
  - simpl fold_left.
    rewrite (IH y (String.append (String.append builder (Sprintf_d elem))
                     separator)).
    change (map Sprintf_d (elem :: y :: rest))
      with (Sprintf_d elem :: map Sprintf_d (y :: rest)).
    change (String.concat separator
              (Sprintf_d elem :: map Sprintf_d (y :: rest)))
      with (String.append (Sprintf_d elem)
              (String.append separator
                 (String.concat separator (map Sprintf_d (y :: rest))))).
    rewrite !string_append_assoc. reflexivity.
Qed.

End ConcatIntsFacts.

(** X15.  [concatInts] joins what a channel delivers: when [source]
    delivers [xs] and is closed, it returns the decimal representations of
    the values of [xs], in order, with [separator] between two of them and
    none before the first or after the last (the empty string when [xs] is
    empty); for a nil [source] it returns the empty string at once. *)
Theorem concatInts_joins (separator : String.string) (source : chan Z)
    (xs : list Z) :
  delivers source xs ->
  returns (fun fuel => concatInts separator fuel source)
    (String.concat separator (map Sprintf_d xs))
  /\ (forall fuel, concatInts separator fuel None = Ret String.EmptyString).
Proof.
  intros Hd. split; [|reflexivity].
  destruct source as [g|]; [|destruct (nil_never_delivers Hd)].
  destruct (delivers_closes_after Hd) as [s' C]. simpl in C.
  pose proof (concatInts_loop_first separator C String.EmptyString) as H.
  unfold concatInts.
  destruct xs as [|elem rest]; [exact H|].
  rewrite written_is_concat in H. exact H.
Qed.

Lemma concatInts_joins_witness :
  delivers (From [1; 2; -3; 60]) [1; 2; -3; 60]
  /\ returns (fun fuel => concatInts ", "%string fuel (From [1; 2; -3; 60]))
       "1, 2, -3, 60"%string.
Proof.
  assert (H : delivers (From [1; 2; -3; 60]) [1; 2; -3; 60])
    by (exists 10%nat; reflexivity).
  split; [exact H|].
  exact (proj1 (concatInts_joins ", "%string H)).
Defined.

(** ** Zip on inputs that need not be closed *)

Section ZipLazy.
Context {T1 T2 T3 : Type} (gx : goroutine T1) (gy : goroutine T2)
        (mapper : T1 -> T2 -> T3).

Local Abbreviation ZL := (Zip_go gx gy mapper).

Lemma Zip_emits_after_x x xs' ux uy ys uy' :
  emits gy uy ys uy' ->
  (forall uy1 rest,
     emits gy uy1 rest uy' ->
     exists k, emits ZL (ZipRecvX gx gy ux uy1) (zip_with mapper xs' rest) k) ->
  exists k, emits ZL (ZipRecvY gx gy (Some x) ux uy)
              (zip_with mapper (x :: xs') ys) k.
Proof.
  intros He Hx.
  induction He as [s | s k ys s' Hn He IH | s v k ys s' Hn He IH].
  - eexists. apply emits_refl.
  - destruct (IH Hx) as [k' E]. exists k'.
    eapply emits_work; [simpl; rewrite Hn; reflexivity | exact E].
  - destruct (Hx k ys He) as [k' E]. exists k'. simpl.
    eapply emits_work; [simpl; rewrite Hn; reflexivity|].
    eapply emits_send; [reflexivity | exact E].
Qed.

Lemma Zip_emits ux xs ux' :
  emits gx ux xs ux' ->
  forall uy ys uy',
    emits gy uy ys uy' ->
    exists k, emits ZL (ZipRecvX gx gy ux uy) (zip_with mapper xs ys) k.
Proof.
  induction 1 as [s | s k xs s' Hn He IH | s v k xs s' Hn He IH];
    intros uy ys uy' Ey.
  - eexists. apply emits_refl.
  - destruct (IH uy ys uy' Ey) as [k' E]. exists k'.
    eapply emits_work; [simpl; rewrite Hn; reflexivity | exact E].
  - destruct (@Zip_emits_after_x v xs k uy ys uy' Ey) as [k' E].
    { intros uy1 rest E1. apply (IH uy1 rest uy' E1). }
    exists k'.
    eapply emits_work; [simpl; rewrite Hn; reflexivity | exact E].
Qed.

End ZipLazy.

Lemma zip_with_nil_r {A B C} (f : A -> B -> C) (xs : list A) :
  zip_with f xs [] = [].
Proof. destruct xs; reflexivity. Qed.

(** X16.  [Zip] is lazy too.  For two channels that are independent of
    each other (each with a sender of its own and no channel read by both;
    not one channel passed twice): whatever values the two have delivered
    at some points, closed or not, the output delivers, at some point of
    its own, [mapper] of the values at the same index, as many as the
    shorter of the two holds. *)
Theorem Zip_is_lazy (T1 T2 T3 : Type) (cx : chan T1) (cy : chan T2)
    (mapper : T1 -> T2 -> T3) (fuelx fuely : nat) :
  exists fuel',
    fst (collect fuel' (Zip cx cy mapper))
    = zip_with mapper (fst (collect fuelx cx)) (fst (collect fuely cy)).
Proof.
  destruct (collect_emits cx fuelx) as [sx Ex].
  destruct (collect_emits cy fuely) as [sy Ey].
  destruct cx as [gx|].
  - destruct cy as [gy|].
    + destruct (Zip_emits mapper Ex Ey) as [k E].
      apply (emits_collect (g := Zip_go gx gy mapper) E).
    + exists O. simpl.
      replace (fst (collect fuely (@None (goroutine T2)))) with (@nil T2)
        by (destruct fuely; reflexivity).
      rewrite zip_with_nil_r. reflexivity.
  - exists O. simpl.
    replace (fst (collect fuelx (@None (goroutine T1)))) with (@nil T1)
      by (destruct fuelx; reflexivity).
    reflexivity.
Qed.

(** ** Zip of one channel with itself *)

Section ZipAliasedFacts.
Context {T T3 : Type} (g : goroutine T) (mapper : T -> T -> T3).

Local Abbreviation ZA := (Zip_aliased_go g mapper).

Lemma Zip_aliased_closes u xs u' :
  closes_after g u xs u' ->
  (exists k, closes_after ZA (ZipAliasedRecvX g u) (pair_up mapper xs) k)
  /\ (forall x,
        exists k, closes_after ZA (ZipAliasedRecvY g (Some x) u)
                    (pair_up mapper (x :: xs)) k).
Proof.
  intros [He Hc].
  induction He as [s | s k xs s' Hn He IH | s v k xs s' Hn He IH].
  - split.
    + exists (ZipAliasedExit g s). split; [|reflexivity]. simpl.
      eapply emits_work; [simpl; rewrite Hc; reflexivity|].
      eapply emits_work; [simpl; rewrite Hc; reflexivity|].
      apply emits_step_work. reflexivity.
    + intros x. exists (ZipAliasedExit g s). split; [|reflexivity]. simpl.
      eapply emits_work; [simpl; rewrite Hc; reflexivity|].
      apply emits_step_work. reflexivity.
  - destruct (IH Hc) as [[k1 [E1 C1]] H2]. split.
    + exists k1. split; [|exact C1].
      eapply emits_work; [simpl; rewrite Hn; reflexivity | exact E1].
    + intros x. destruct (H2 x) as [k2 [E2 C2]].
      exists k2. split; [|exact C2].
      eapply emits_work; [simpl; rewrite Hn; reflexivity | exact E2].
  - destruct (IH Hc) as [[k1 [E1 C1]] H2]. split.
    + destruct (H2 v) as [k2 [E2 C2]].
      exists k2. split; [|exact C2].
      eapply emits_work; [simpl; rewrite Hn; reflexivity | exact E2].
    + intros x. exists k1. split; [|exact C1].
      change (pair_up mapper (x :: v :: xs))
        with (mapper x v :: pair_up mapper xs).
      eapply emits_work; [simpl; rewrite Hn; reflexivity|].
      eapply emits_send; [reflexivity | exact E1].
Qed.

End ZipAliasedFacts.

(** X17.  [Zip] of one channel with itself, [Zip(c, c, mapper)]: both
    receives of the loop take from the same channel, so when [c] delivers
    [xs] and is closed the output delivers [mapper] of the first and second
    value of [xs], of the third and fourth, and so on, drops a value left
    alone at the end, and is closed.  It does not pair a value with
    itself. *)
Theorem Zip_aliased_pairs (T T3 : Type) (c : chan T)
    (mapper : T -> T -> T3) (xs : list T) :
  delivers c xs ->
  delivers (Zip_aliased c mapper) (pair_up mapper xs).
Proof.
  intros Hd.
  destruct c as [g|]; [|destruct (nil_never_delivers Hd)].
  destruct (delivers_closes_after Hd) as [s' C]. simpl in C.
  destruct (proj1 (Zip_aliased_closes mapper C)) as [k Ck].
  apply (closes_after_delivers (g := Zip_aliased_go g mapper) Ck).
Qed.

Lemma Zip_aliased_pairs_witness :
  delivers (From [1; 2; 3; 4; 5]) [1; 2; 3; 4; 5]
  /\ delivers (Zip_aliased (From [1; 2; 3; 4; 5]) GoInt.add) [3; 7].
Proof.
  assert (H : delivers (From [1; 2; 3; 4; 5]) [1; 2; 3; 4; 5])
    by (exists 10%nat; reflexivity).
  split; [exact H|].
  exact (Zip_aliased_pairs GoInt.add H).
Defined.
